(** * Threshold additive ElGamal decryption core: embedding and properties

    Shallow embedding of
      - decrypt.go                         (Lagrange recombination, discrete log),
      - state/vote.go                      (AddVote),
      - crypto/ecc/bjj_iden3/babyjubjub.go (the BabyJubJub point wrapper),
    followed by the properties of the specification that concern them.

    Go methods that overwrite their receiver are functions returning the
    receiver's new value.  Go's [int] and [uint64] are [Z] with the
    wrap-around written out; [*big.Int] is [Z]; Go maps are [gmap]s. *)

From Stdlib Require Import ZArith Znumtheory Zcong Lia List Permutation.
From Stdlib Require Import Strings.Byte.
From stdpp Require Import gmap strings list fin_maps pretty.

Local Open Scope Z_scope.

(** ** Go machine integers *)

Module GoInt.

(** [int] and [int64]: two's complement on 64 bits. *)
Definition wrap64 (z : Z) : Z := (z + 2 ^ 63) mod 2 ^ 64 - 2 ^ 63.

(** [uint64]. *)
Definition wrapU64 (z : Z) : Z := z mod 2 ^ 64.

Definition neg (j : Z) : Z := wrap64 (- j).
Definition sub (i j : Z) : Z := wrap64 (i - j).
Definition add (i j : Z) : Z := wrap64 (i + j).

Definition inRange (z : Z) : Prop := - 2 ^ 63 <= z < 2 ^ 63.

End GoInt.

(** ** Outcomes of a call

    A call either returns, or ends the process through [log.Fatalf]
    ([os.Exit(1)] after logging), or panics on a nil pointer dereference. *)

Inductive run (A : Type) : Type :=
| Done (a : A)
| Fatal
| Panic.

Arguments Done {A} a.
Arguments Fatal {A}.
Arguments Panic {A}.

Definition run_bind {A B : Type} (r : run A) (k : A -> run B) : run B :=
  match r with
  | Done a => k a
  | Fatal => Fatal
  | Panic => Panic
  end.

Notation "x <- r ;; k" := (run_bind r (fun x => k))
  (at level 100, r at next level, right associativity).

(** A Go result pair of a [big.Int] pointer and an [error]: the error message
    is the argument of [fmt.Errorf]. *)
Inductive result : Type :=
| Ok (x : Z)
| Err (msg : string).

(** ** math/big *)

(** [new(big.Int).ModInverse(g, n)] for [n > 0]: [nil] when [g] and [n] are not
    relatively prime, otherwise the inverse of [g] in the range [0 <= z < n]. *)
Definition ModInverse (g n : Z) : option Z :=
  if Z.gcd g n =? 1 then Some (Z.invmod g n) else None.

(** ** The curve point type [G1] of package main

    [G1], [Order] and [Participant] are declared outside the files at hand, so
    the point type enters as an interface.  Each method is the receiver's new
    value as a function of the method's arguments; [zero] is both the value of
    [&G1{}] and the result of [SetZero].  [Neg] is only ever called with the
    receiver as its argument ([s.Neg(s)], [c.Neg(c)]). *)

Class Curve : Type := {
  G1 : Type;
  Order : Z;
  zero : G1;
  Add : G1 -> G1 -> G1;
  Neg : G1 -> G1;
  ScalarMult : G1 -> Z -> G1;
  ScalarBaseMult : Z -> G1;
  Equal : G1 -> G1 -> bool;
  String : G1 -> string;
}.

(** What the code relies on: a commutative group of prime order [Order],
    generated by the base point, with exact equality and a collision-free
    string encoding.  Scalars are non-negative. *)
Class CurveLaws (C : Curve) : Prop := {
  Order_prime : Z.prime Order;
  Add_assoc : forall a b c : G1, Add a (Add b c) = Add (Add a b) c;
  Add_comm : forall a b : G1, Add a b = Add b a;
  Add_zero_l : forall a : G1, Add zero a = a;
  Add_Neg : forall a : G1, Add a (Neg a) = zero;
  ScalarMult_0 : forall a : G1, ScalarMult a 0 = zero;
  ScalarMult_succ : forall (a : G1) (k : Z), 0 <= k ->
    ScalarMult a (k + 1) = Add (ScalarMult a k) a;
  ScalarMult_Order : forall a : G1, ScalarMult a Order = zero;
  ScalarBaseMult_gen : forall k : Z,
    ScalarBaseMult k = ScalarMult (ScalarBaseMult 1) k;
  generator_nonzero : ScalarBaseMult 1 <> zero;
  Equal_spec : forall a b : G1, Equal a b = true <-> a = b;
  String_inj : forall a b : G1, String a = String b -> a = b;
}.

(** ** decrypt.go *)

Module Decrypt.
Section WithCurve.

Context {C : Curve}.

Definition discreteLogMaxMessage : Z := 7000000000 * 16.
Definition numWorkersDiscreteLogBruteForce : Z := 10.

Record Participant : Type := {
  ID : Z;
  PrivateShare : Z;
}.

(** [ComputePartialDecryption]: s_i = privateShare * C1. *)
Definition ComputePartialDecryption (p : Participant) (c1 : G1) : G1 :=
  ScalarMult c1 (PrivateShare p).

(** Body of the inner loop of [computeLagrangeCoefficients], for one [j]. *)
Definition lagrangeStep (i : Z) (acc : Z * Z) (j : Z) : Z * Z :=
  let '(numerator, denominator) := acc in
  if bool_decide (i <> j) then
    let tempNum := GoInt.neg j mod Order in
    let numerator := (numerator * tempNum) mod Order in
    let tempDen := GoInt.sub i j in
    let tempDen := if tempDen <? 0 then tempDen + Order else tempDen in
    let tempDen := tempDen mod Order in
    let denominator := (denominator * tempDen) mod Order in
    (numerator, denominator)
  else acc.

(** The outer loop, over the remaining ids [rest]. *)
Fixpoint lagrangeLoop (participants rest : list Z) (coeffs : gmap Z Z)
  : run (gmap Z Z) :=
  match rest with
  | [] => Done coeffs
  | i :: rest' =>
      let '(numerator, denominator) :=
        foldl (lagrangeStep i) (1, 1) participants in
      match ModInverse denominator Order with
      | None => Fatal
      | Some denominatorInv =>
          let coeff := (numerator * denominatorInv) mod Order in
          lagrangeLoop participants rest' (<[i := coeff]> coeffs)
      end
  end.

Definition computeLagrangeCoefficients (participants : list Z)
  : run (gmap Z Z) :=
  lagrangeLoop participants participants ∅.

(** The loop of [CombinePartialDecryptions] that sums the weighted partial
    decryptions.  A missing map entry is a nil pointer, which [ScalarMult]
    dereferences. *)
Fixpoint weightedSum (partialDecryptions : gmap Z G1)
    (lagrangeCoeffs : gmap Z Z) (participants : list Z) (s : G1) : run G1 :=
  match participants with
  | [] => Done s
  | id :: rest =>
      match partialDecryptions !! id, lagrangeCoeffs !! id with
      | Some pd, Some lambda =>
          let term := ScalarMult pd lambda in
          weightedSum partialDecryptions lagrangeCoeffs rest (Add s term)
      | _, _ => Panic
      end
  end.

(** *** Strategy A: parallel brute force *)

(** One worker: [for i := start; i <= end; i++]. *)
Fixpoint workerLoop (n : nat) (i : Z) (m : G1) : option Z :=
  match n with
  | O => None
  | S n' =>
      let messageScalar := GoInt.wrap64 i in
      if Equal (ScalarBaseMult messageScalar) m then Some messageScalar
      else workerLoop n' (i + 1) m
  end.

Definition worker (start end_ : Z) (m : G1) : option Z :=
  workerLoop (Z.to_nat (end_ - start + 1)) start m.

Definition step : Z :=
  discreteLogMaxMessage / numWorkersDiscreteLogBruteForce.

Definition workerStart (i : Z) : Z := GoInt.wrapU64 (i * step).

Definition workerEnd (i : Z) : Z :=
  if i =? numWorkersDiscreteLogBruteForce - 1
  then GoInt.wrapU64 discreteLogMaxMessage
  else GoInt.wrapU64 (workerStart i + GoInt.wrapU64 (step - 1)).

(** The collecting loop reads the channel [results]; it returns at the first
    result that is marked found. *)
Fixpoint collect (results : list (option Z)) : option Z :=
  match results with
  | [] => None
  | Some messageScalar :: _ => Some messageScalar
  | None :: rest => collect rest
  end.

(** Every worker sends exactly one result to the buffered channel; [arrival]
    lists the workers in the order in which their results reach it. *)
Definition bruteForce (m : G1) (arrival : list nat) : result :=
  let results :=
    map (fun w => worker (workerStart (Z.of_nat w))
                         (workerEnd (Z.of_nat w)) m) arrival in
  match collect results with
  | Some messageScalar => Ok messageScalar
  | None =>
      Err "failed to decrypt message, discrete logarithm problem unsolved"
  end.

(** A schedule of the workers: each of them reports once. *)
Definition schedule (arrival : list nat) : Prop :=
  Permutation arrival
    (seq 0 (Z.to_nat numWorkersDiscreteLogBruteForce)).

(** *** Strategy B: Baby-Step Giant-Step *)

(** [uint64(math.Sqrt(float64(maxMessage))) + 1].  [maxMessage] is below
    2^53, so the conversion to [float64] is exact; the correctly rounded root
    334664.01... truncates to the integer square root. *)
Definition mSqrt : Z := GoInt.wrapU64 (Z.sqrt discreteLogMaxMessage) + 1.

Fixpoint babyLoop (n : nat) (j : Z) (babyStep G : G1)
    (babySteps : gmap string Z) : gmap string Z :=
  match n with
  | O => babySteps
  | S n' =>
      let key := String babyStep in
      babyLoop n' (j + 1) (Add babyStep G) G (<[key := j]> babySteps)
  end.

Fixpoint giantLoop (n : nat) (i : Z) (giantStep c : G1)
    (babySteps : gmap string Z) : option Z :=
  match n with
  | O => None
  | S n' =>
      match babySteps !! String giantStep with
      | Some j => Some (GoInt.wrapU64 (i * mSqrt) + j)
      | None => giantLoop n' (i + 1) (Add giantStep c) c babySteps
      end
  end.

Definition babyStepGiantStep (m : G1) : result :=
  let G := ScalarBaseMult 1 in
  let babySteps := babyLoop (Z.to_nat mSqrt) 0 zero G ∅ in
  let c := Neg (ScalarBaseMult (GoInt.wrap64 mSqrt)) in
  match giantLoop (Z.to_nat (mSqrt + 1)) 0 m c babySteps with
  | Some x => Ok x
  | None =>
      Err "failed to compute discrete logarithm using Baby-Step Giant-Step algorithm"
  end.

(** *** CombinePartialDecryptions *)

(** The point M = C2 - s handed to the discrete logarithm search. *)
Definition maskedPoint (c2 : G1) (partialDecryptions : gmap Z G1)
    (participants : list Z) : run G1 :=
  lagrangeCoeffs <- computeLagrangeCoefficients participants ;;
  s <- weightedSum partialDecryptions lagrangeCoeffs participants zero ;;
  let s := Neg s in
  Done (Add c2 s).

(** The package variable [useBabyStepGiantStep] and the arrival order of the
    workers' results are arguments. *)
Definition CombinePartialDecryptions (useBabyStepGiantStep : bool)
    (arrival : list nat) (c2 : G1) (partialDecryptions : gmap Z G1)
    (participants : list Z) : run result :=
  m <- maskedPoint c2 partialDecryptions participants ;;
  if negb useBabyStepGiantStep then Done (bruteForce m arrival)
  else Done (babyStepGiantStep m).

End WithCurve.
End Decrypt.

(** ** state/vote.go *)

#[global] Instance byte_eq_dec : EqDecision byte := Byte.byte_eq_dec.
#[global] Instance byte_countable : Countable byte :=
  inj_countable Byte.to_N Byte.of_N Byte.of_to_N.

(** [elgamal.Ciphertexts], the state's write transaction and the constant
    [VoteBatchSize] are declared outside the files at hand. *)
Class Elgamal : Type := {
  Ciphertexts : Type;
  CiphertextsAdd : Ciphertexts -> Ciphertexts -> Ciphertexts;
  (** [NewCiphertexts(Curve)] followed by [Deserialize(value)]: the decoded
      ciphertext, or the error. *)
  Deserialize : list byte -> Ciphertexts + string;
  WriteTx : Type;
  VoteBatchSize : Z;
}.

Module State.
Section WithElgamal.

Context {E : Elgamal}.

Record Vote : Type := {
  Nullifier : list byte;
  Ballot : Ciphertexts;
  Address : list byte;
  Commitment : Z;
}.

(** The fields of [State] that [AddVote] reads or writes.  [tree] is the
    persisted key-value content behind [o.tree.Get]. *)
Record State : Type := {
  dbTx : option WriteTx;
  tree : gmap (list byte) (list byte);
  votes : list Vote;
  BallotSum : Ciphertexts;
  OverwriteSum : Ciphertexts;
  ballotCount : Z;
  overwriteCount : Z;
}.

(** [AddVote]: the state after the call and the returned error ([None] is
    [nil]). *)
Definition AddVote (o : State) (v : Vote) : State * option string :=
  match dbTx o with
  | None => (o, Some "need to StartBatch() first")
  | Some _ =>
      if Z.of_nat (length (votes o)) >=? VoteBatchSize
      then (o, Some "too many votes for this batch")
      else
        let overwritten :=
          match tree o !! Nullifier v with
          | Some value =>
              match Deserialize value with
              | inr err => inr err
              | inl oldVote =>
                  inl (CiphertextsAdd (OverwriteSum o) oldVote,
                       GoInt.add (overwriteCount o) 1)
              end
          | None => inl (OverwriteSum o, overwriteCount o)
          end in
        match overwritten with
        | inr err => (o, Some err)
        | inl (overwriteSum', overwriteCount') =>
            ({| dbTx := dbTx o;
                tree := tree o;
                votes := votes o ++ [v];
                BallotSum := CiphertextsAdd (BallotSum o) (Ballot v);
                OverwriteSum := overwriteSum';
                ballotCount := GoInt.add (ballotCount o) 1;
                overwriteCount := overwriteCount' |},
             None)
        end
  end.

(** Successive calls on the same state; the errors are collected in call
    order. *)
Fixpoint AddVotes (o : State) (vs : list Vote) : State * list (option string) :=
  match vs with
  | [] => (o, [])
  | v :: rest =>
      let '(o', err) := AddVote o v in
      let '(o'', errs) := AddVotes o' rest in
      (o'', err :: errs)
  end.

End WithElgamal.
End State.

(** ** crypto/ecc/bjj_iden3/babyjubjub.go

    The wrapper [BJJ] holds a pointer to a point of go-iden3-crypto/babyjub, an
    external dependency.  Its points, the base field and the projective
    formulas are written after that library. *)

Module BJJ.

(** The base field modulus and the curve a*x^2 + y^2 = 1 + d*x^2*y^2. *)
Definition Q : Z :=
  21888242871839275222246405745257275088548364400416034343698204186575808495617.
Definition A : Z := 168700.
Definition D : Z := 168696.

Record Point : Type := { X : Z; Y : Z }.

Record PointProjective : Type := { pX : Z; pY : Z; pZ : Z }.

(** [babyjub.NewPoint()]: the identity (0, 1). *)
Definition NewPoint : Point := {| X := 0; Y := 1 |}.

Definition B8 : Point :=
  {| X := 5299619240641551281634865583518297030282874472190772894086521144482721001553;
     Y := 16950150798460657717958625567821834550301663161624707787222815936182638968203 |}.

Definition Projective (p : Point) : PointProjective :=
  {| pX := X p mod Q; pY := Y p mod Q; pZ := 1 |}.

Definition Affine (p : PointProjective) : Point :=
  if pZ p =? 0 then {| X := 0; Y := 0 |}
  else
    let zinv := Z.invmod (pZ p) Q in
    {| X := (pX p * zinv) mod Q; Y := (pY p * zinv) mod Q |}.

(** Projective addition (add-2008-bbjlp). *)
Definition projAdd (q o : PointProjective) : PointProjective :=
  let a := (pZ q * pZ o) mod Q in
  let b := (a * a) mod Q in
  let c := (pX q * pX o) mod Q in
  let d := (pY q * pY o) mod Q in
  let e := (((D * c) mod Q) * d) mod Q in
  let f := (b - e) mod Q in
  let g := (b + e) mod Q in
  let x1y1 := (pX q + pY q) mod Q in
  let x2y2 := (pX o + pY o) mod Q in
  let x3 := (((((x1y1 * x2y2) mod Q - c) mod Q - d) mod Q * a) mod Q * f) mod Q in
  let ac := (A * c) mod Q in
  let y3 := ((((d - ac) mod Q) * a) mod Q * g) mod Q in
  let z3 := (f * g) mod Q in
  {| pX := x3; pY := y3; pZ := z3 |}.

(** [New()]: a wrapper around the identity. *)
Definition New : Point := NewPoint.

(** [g.Add(a, b)]. *)
Definition Add (a b : Point) : Point :=
  Affine (projAdd (Projective a) (Projective b)).

(** [g.Equal(a)]. *)
Definition Equal (g a : Point) : bool :=
  (X g =? X a) && (Y g =? Y a).

(** [g.Neg(a)]: the receiver [g] after the call.  The body reads [g.inner]
    only. *)
Definition Neg (g a : Point) : Point :=
  let proj := Projective g in
  let proj := {| pX := (- pX proj) mod Q; pY := pY proj; pZ := pZ proj |} in
  {| X := X (Affine proj); Y := Y g |}.

(** [g.Set(a)]. *)
Definition Set_ (g a : Point) : Point := {| X := X a; Y := Y a |}.

(** [g.SetZero()]. *)
Definition SetZero (g : Point) : Point :=
  let p := Projective g in
  Affine {| pX := 0; pY := 1; pZ := 1 |}.

End BJJ.

(** ** A concrete back end: the integers modulo a prime

    The additive group of residues modulo [Zq.q] implements the [Curve]
    interface, with base point 1; pairs of its points implement the
    ciphertexts of [Elgamal].  The general results are instantiated on it. *)

Module Zq.

(** A prime above [mSqrt * (mSqrt + 1)], the reach of Baby-Step Giant-Step. *)
Definition q : Z := 112000996897.

Definition q_pos : 0 < q := eq_refl.

Definition point : Type := dsig (fun z : Z => 0 <= z < q).

Definition mk (z : Z) : point := dexist (z mod q) (Z.mod_pos_bound z q q_pos).

Definition val (a : point) : Z := proj1_sig a.

#[global] Instance curve : Curve := {|
  G1 := point;
  Order := q;
  zero := mk 0;
  Add := fun a b => mk (val a + val b);
  Neg := fun a => mk (- val a);
  ScalarMult := fun a k => mk (val a * k);
  ScalarBaseMult := fun k => mk k;
  Equal := fun a b => bool_decide (val a = val b);
  String := fun a => pretty (val a);
|}.

(** Two points, one byte each; any other length is refused. *)
Definition deserialize (value : list byte) : (point * point) + string :=
  match value with
  | [b1; b2] => inl (mk (Z.of_N (Byte.to_N b1)), mk (Z.of_N (Byte.to_N b2)))
  | _ => inr "invalid input length"%string
  end.

#[global] Instance elgamal : Elgamal := {|
  Ciphertexts := point * point;
  CiphertextsAdd := fun a b => (Add a.1 b.1, Add a.2 b.2);
  Deserialize := deserialize;
  WriteTx := unit;
  VoteBatchSize := 2;
|}.

(** Trial division by 2 and by the odd numbers up to the square root. *)
Fixpoint noDivisorFrom (n : nat) (d p : Z) : bool :=
  match n with
  | O => true
  | S n' => if p mod d =? 0 then false else noDivisorFrom n' (d + 2) p
  end.

Definition primeb (p : Z) : bool :=
  (1 <? p) && negb (p mod 2 =? 0)
  && noDivisorFrom (Z.to_nat (Z.sqrt p / 2)) 3 p.

End Zq.

(** ** Vocabulary of the statements *)

(** Value at [x] of the polynomial with coefficients [p], lowest degree
    first. *)
Definition peval (p : list Z) (x : Z) : Z :=
  foldr (fun c acc => c + x * acc) 0 p.

(** Quotient of [p] by (x - a), by Horner's scheme. *)
Fixpoint pquot (p : list Z) (a : Z) : list Z :=
  match p with
  | [] => []
  | _ :: p' =>
      match p' with
      | [] => []
      | _ :: _ => peval p' a :: pquot p' a
      end
  end.

(** Coefficient-wise sum of two polynomials. *)
Fixpoint padd (p r : list Z) : list Z :=
  match p, r with
  | [], _ => r
  | _, [] => p
  | a :: p', b :: r' => (a + b) :: padd p' r'
  end.

(** [h] is a polynomial function with at most [n] coefficients. *)
Definition is_poly (n : nat) (h : Z -> Z) : Prop :=
  exists p : list Z, (length p <= n)%nat /\ forall x, h x = peval p x.

(** Sum of [h] over a list. *)
Definition sumOver (h : Z -> Z) (l : list Z) : Z :=
  foldr (fun i acc => h i + acc) 0 l.

(** Product of [h j] over the [j] of [ids] other than [i]. *)
Definition prodOthers (h : Z -> Z) (i : Z) (ids : list Z) : Z :=
  foldr (fun j acc => h j * acc) 1 (filter (fun j => i <> j) ids).

(** A positive Go [int] below the group order. *)
Definition validId `{Curve} (i : Z) : Prop := 0 < i < 2 ^ 63 /\ i < Order.

(** The two messages of [fmt.Errorf] in decrypt.go; both are the
    specification's DiscreteLogUnsolved. *)
Definition DiscreteLogUnsolved (r : result) : Prop :=
  r = Err "failed to decrypt message, discrete logarithm problem unsolved"
  \/ r = Err "failed to compute discrete logarithm using Baby-Step Giant-Step algorithm".

(** The Lagrange coefficient of [i] at 0 over [ids], modulo the group order:
    the product of the (-j) times the inverse of the product of the (i - j),
    for the [j] other than [i]. *)
Definition lagrangeFormula `{Curve} (ids : list Z) (i : Z) : Z :=
  (prodOthers (fun j => - j) i ids
   * Z.invmod (prodOthers (fun j => i - j) i ids) Order) mod Order.

(** The point that Baby-Step Giant-Step looks up at giant step [i], and its
    table of baby steps. *)
Definition giantPoint `{Curve} (m : G1) (i : Z) : G1 :=
  Add m (Neg (ScalarBaseMult (Decrypt.mSqrt * i))).

Definition babySteps `{Curve} : gmap string Z :=
  Decrypt.babyLoop (Z.to_nat Decrypt.mSqrt) 0 zero (ScalarBaseMult 1) ∅.

(** The polynomial x^k. *)
Definition monomial (k : nat) : list Z := replicate k 0 ++ [1].

(** The ballot persisted under the vote's nullifier, if any, deserializes. *)
Definition storedBallotDecodes `{Elgamal} (o : State.State) (v : State.Vote)
  : Prop :=
  match State.tree o !! State.Nullifier v with
  | Some value => exists oldVote, Deserialize value = inl oldVote
  | None => True
  end.

(** Sample data over the concrete back end: an open, empty batch over a store
    that holds one undecodable entry, and votes on three nullifiers. *)
Module Sample.

Definition nullifierA : list byte := ["a"%byte].
Definition nullifierB : list byte := ["b"%byte].
Definition nullifierC : list byte := ["c"%byte].

Definition zeroCiphertext : @Ciphertexts Zq.elgamal := (Zq.mk 0, Zq.mk 0).

Definition vote (nullifier : list byte) (c1 c2 : Z) : @State.Vote Zq.elgamal :=
  {| State.Nullifier := nullifier;
     State.Ballot := (Zq.mk c1, Zq.mk c2);
     State.Address := [];
     State.Commitment := 0 |}.

Definition openBatch (store : gmap (list byte) (list byte))
  : @State.State Zq.elgamal :=
  {| State.dbTx := Some tt;
     State.tree := store;
     State.votes := [];
     State.BallotSum := zeroCiphertext;
     State.OverwriteSum := zeroCiphertext;
     State.ballotCount := 0;
     State.overwriteCount := 0 |}.

(** Under [nullifierC] the store holds one byte, which does not decode. *)
Definition corruptStore : gmap (list byte) (list byte) :=
  {[ nullifierC := ["x"%byte] ]}.

End Sample.

(** Shares of the polynomial 7 + 3 x and the partial decryptions of the
    first component 5 * G that they give. *)
Module SampleShares.

Definition polynomial : list Z := [7; 3].

Definition pd (i : Z) : Zq.point :=
  @Decrypt.ComputePartialDecryption Zq.curve
    {| Decrypt.ID := i; Decrypt.PrivateShare := peval polynomial i |}
    (Zq.mk 5).

End SampleShares.

(** * Proofs *)

Import Decrypt.
Import State.

(** ** Polynomials *)

Lemma peval_cons c p x : peval (c :: p) x = c + x * peval p x.
Proof. reflexivity. Qed.

Lemma pquot_length p a : length (pquot p a) = pred (length p).
Proof.
  induction p as [|c p IH]; [reflexivity|].
  destruct p as [|c' p']; [reflexivity|].
  change (pquot (c :: c' :: p') a) with (peval (c' :: p') a :: pquot (c' :: p') a).
  cbn [length]. rewrite IH. reflexivity.
Qed.

Lemma pquot_spec p a x :
  peval p x = (x - a) * peval (pquot p a) x + peval p a.
Proof.
  induction p as [|c p IH]; [cbn; lia|].
  destruct p as [|c' p'].
  - cbn. lia.
  - change (pquot (c :: c' :: p') a) with (peval (c' :: p') a :: pquot (c' :: p') a).
    rewrite !(peval_cons c), (peval_cons (peval _ _)).
    rewrite IH at 1. ring.
Qed.

Lemma padd_length p r : length (padd p r) = Nat.max (length p) (length r).
Proof.
  revert r; induction p as [|a p IH]; intros [|b r]; cbn; try lia.
  rewrite IH. lia.
Qed.

Lemma padd_spec p r x : peval (padd p r) x = peval p x + peval r x.
Proof.
  revert r; induction p as [|a p IH]; intros [|b r]; cbn [padd]; rewrite ?peval_cons.
  - reflexivity.
  - cbn. lia.
  - cbn. lia.
  - rewrite IH. ring.
Qed.

Lemma peval_scale c p x : peval (map (Z.mul c) p) x = c * peval p x.
Proof.
  induction p as [|a p IH]; cbn [map]; rewrite ?peval_cons; [cbn; lia|].
  rewrite IH. ring.
Qed.

Lemma is_poly_ext n h h' : (forall x, h x = h' x) -> is_poly n h -> is_poly n h'.
Proof. intros E (p & L & Hp). exists p. split; [done|]. intros x. rewrite <- E. apply Hp. Qed.

Lemma is_poly_mono n m h : (n <= m)%nat -> is_poly n h -> is_poly m h.
Proof. intros ? (p & L & Hp). exists p. split; [lia | done]. Qed.

Lemma is_poly_zero n : is_poly n (fun _ => 0).
Proof. exists []. split; [cbn; lia | reflexivity]. Qed.

Lemma is_poly_const c : is_poly 1 (fun _ => c).
Proof. exists [c]. split; [cbn; lia | intros; cbn; lia]. Qed.

Lemma is_poly_peval p : is_poly (length p) (peval p).
Proof. exists p. split; [lia | done]. Qed.

Lemma is_poly_add n h1 h2 :
  is_poly n h1 -> is_poly n h2 -> is_poly n (fun x => h1 x + h2 x).
Proof.
  intros (p1 & L1 & H1) (p2 & L2 & H2). exists (padd p1 p2). split.
  - rewrite padd_length. lia.
  - intros x. rewrite padd_spec, H1, H2. reflexivity.
Qed.

Lemma is_poly_scale n c h : is_poly n h -> is_poly n (fun x => c * h x).
Proof.
  intros (p & L & Hp). exists (map (Z.mul c) p). split.
  - rewrite length_map. exact L.
  - intros x. rewrite peval_scale, Hp. reflexivity.
Qed.

Lemma is_poly_mul_linear n a h :
  is_poly n h -> is_poly (S n) (fun x => (x - a) * h x).
Proof.
  intros (p & L & Hp). exists (padd (0 :: p) (map (Z.mul (- a)) p)). split.
  - rewrite padd_length, length_map. cbn [length]. lia.
  - intros x. rewrite padd_spec, peval_scale, peval_cons, Hp. ring.
Qed.

Section ModPrime.
Variable N : Z.
Hypothesis N_prime : Z.prime N.

Lemma N_ge_2 : 2 <= N.
Proof. apply Z.prime_ge_2, N_prime. Qed.

Lemma mod_mul_zero a b : (a * b) mod N = 0 -> a mod N = 0 \/ b mod N = 0.
Proof.
  pose proof N_ge_2.
  intros H0. apply Z.mod_divide in H0; [|lia].
  apply Z.divide_prime_mul in H0; [|exact N_prime].
  destruct H0 as [D|D]; [left|right]; apply Z.mod_divide; try lia; exact D.
Qed.

Lemma eqm_sub_zero a b : a mod N = b mod N <-> (a - b) mod N = 0.
Proof.
  pose proof N_ge_2. split; intros E.
  - rewrite Zminus_mod, E, Z.sub_diag. apply Z.mod_0_l. lia.
  - replace a with ((a - b) + b) by lia. rewrite Z.add_mod, E by lia.
    rewrite Z.add_0_l, Z.mod_mod by lia. reflexivity.
Qed.

(** A polynomial with no more coefficients than it has roots, pairwise
    distinct modulo the prime [N], vanishes everywhere modulo [N]. *)
Lemma roots_vanish roots : forall p,
  (length p <= length roots)%nat ->
  NoDup (map (fun r => r mod N) roots) ->
  (forall r, r ∈ roots -> peval p r mod N = 0) ->
  forall x, peval p x mod N = 0.
Proof.
  pose proof N_ge_2 as HN.
  induction roots as [|a roots IH]; intros p L ND R x.
  - destruct p; [|cbn in L; lia]. cbn. apply Z.mod_0_l. lia.
  - destruct p as [|c p']; [cbn; apply Z.mod_0_l; lia|].
    cbn [map] in ND. apply NoDup_cons in ND as [Ha ND].
    assert (Q : forall y, peval (pquot (c :: p') a) y mod N = 0).
    { apply IH.
      - rewrite pquot_length. cbn [length] in *. lia.
      - exact ND.
      - intros r Hr.
        assert (R1 := R r ltac:(right; exact Hr)).
        assert (R2 := R a ltac:(left)).
        rewrite (pquot_spec _ a r) in R1.
        rewrite Z.add_mod, R2, Z.add_0_r, Z.mod_mod in R1 by lia.
        apply mod_mul_zero in R1 as [R1|R1]; [|exact R1].
        exfalso. apply Ha. apply eqm_sub_zero in R1. rewrite <- R1.
        apply list_elem_of_fmap. exists r. split; [reflexivity | exact Hr]. }
    rewrite (pquot_spec _ a x).
    rewrite Z.add_mod, (R a ltac:(left)), Z.add_0_r, Z.mod_mod by lia.
    rewrite Z.mul_mod, Q, Z.mul_0_r by lia. apply Z.mod_0_l. lia.
Qed.
End ModPrime.

Lemma prodOthers_cons h i j ids :
  prodOthers h i (j :: ids) =
  if decide (i = j) then prodOthers h i ids else h j * prodOthers h i ids.
Proof.
  unfold prodOthers. rewrite filter_cons.
  destruct (decide (i = j)) as [->|Hne].
  - rewrite decide_False by auto. reflexivity.
  - rewrite decide_True by auto. reflexivity.
Qed.

Lemma prodOthers_ext h h' i ids :
  (forall j, h j = h' j) -> prodOthers h i ids = prodOthers h' i ids.
Proof.
  intros E. induction ids as [|j ids IH]; [reflexivity|].
  rewrite !prodOthers_cons, IH, E. reflexivity.
Qed.

Lemma sumOver_cons h i l : sumOver h (i :: l) = h i + sumOver h l.
Proof. reflexivity. Qed.

Lemma sumOver_zero h l : (forall i, i ∈ l -> h i = 0) -> sumOver h l = 0.
Proof.
  induction l as [|i l IH]; intros Hz; [reflexivity|].
  rewrite sumOver_cons, (Hz i), IH; [lia | | left].
  intros j Hj. apply Hz. right. exact Hj.
Qed.

Lemma sumOver_single h k l :
  NoDup l -> k ∈ l -> (forall i, i ∈ l -> i <> k -> h i = 0) ->
  sumOver h l = h k.
Proof.
  induction l as [|i l IH]; intros ND Hk Hz.
  - inversion Hk.
  - apply NoDup_cons in ND as [Hi ND]. rewrite sumOver_cons.
    apply elem_of_cons in Hk as [->|Hk].
    + rewrite sumOver_zero; [lia|].
      intros j Hj. apply Hz; [right; exact Hj|]. intros ->. contradiction.
    + rewrite IH; [| exact ND | exact Hk |].
      * rewrite (Hz i); [lia | left |]. intros ->. contradiction.
      * intros j Hj. apply Hz. right. exact Hj.
Qed.

Lemma sumOver_mod_ext N h h' l :
  0 < N ->
  (forall i, i ∈ l -> h i mod N = h' i mod N) ->
  sumOver h l mod N = sumOver h' l mod N.
Proof.
  intros HN. induction l as [|i l IH]; intros E; [reflexivity|].
  rewrite !sumOver_cons, Z.add_mod, (Z.add_mod (h' i)) by lia.
  rewrite (E i), IH; [reflexivity | | left].
  intros j Hj. apply E. right. exact Hj.
Qed.

Lemma filter_others_absent (i : Z) (ids : list Z) :
  i ∉ ids -> filter (fun j => i <> j) ids = ids.
Proof.
  induction ids as [|j ids IH]; intros Hi; [reflexivity|].
  apply not_elem_of_cons in Hi as [Hne Hi].
  rewrite filter_cons_True by exact Hne. rewrite IH by exact Hi. reflexivity.
Qed.

Lemma filter_others_length (i : Z) (ids : list Z) :
  NoDup ids -> i ∈ ids ->
  S (length (filter (fun j => i <> j) ids)) = length ids.
Proof.
  induction ids as [|j ids IH]; intros ND Hi; [inversion Hi|].
  apply NoDup_cons in ND as [Hj ND].
  destruct (decide (i = j)) as [->|Hne].
  - rewrite filter_cons_False by auto.
    rewrite filter_others_absent by exact Hj. reflexivity.
  - rewrite filter_cons_True by exact Hne. cbn [length]. f_equal.
    apply IH; [exact ND|]. apply elem_of_cons in Hi as [?|?]; [contradiction | done].
Qed.

Lemma is_poly_linear_factors (l : list Z) :
  is_poly (S (length l)) (fun x => foldr (fun j acc => (x - j) * acc) 1 l).
Proof.
  induction l as [|j l IH].
  - exact (is_poly_const 1).
  - exact (is_poly_mul_linear _ j _ IH).
Qed.

Lemma linear_factors_root (k : Z) (l : list Z) :
  k ∈ l -> foldr (fun j acc => (k - j) * acc) 1 l = 0.
Proof.
  induction l as [|j l IH]; intros Hk; [inversion Hk|].
  cbn [foldr]. apply elem_of_cons in Hk as [->|Hk].
  - lia.
  - rewrite IH by exact Hk. lia.
Qed.

Lemma prodOthers_root k i ids :
  k ∈ ids -> i <> k -> prodOthers (fun j => k - j) i ids = 0.
Proof.
  intros Hk Hne. unfold prodOthers. apply linear_factors_root.
  apply list_elem_of_filter. split; [exact Hne | exact Hk].
Qed.

Lemma sumOver_ext h h' l :
  (forall i, h i = h' i) -> sumOver h l = sumOver h' l.
Proof.
  intros E. induction l as [|i l IH]; [reflexivity|].
  rewrite !sumOver_cons, IH, E. reflexivity.
Qed.

Section Interpolation.
Variable N : Z.
Hypothesis N_prime : Z.prime N.

(** Lagrange interpolation at 0, modulo a prime: weights [w i] that invert
    the denominators recover the constant coefficient of [f]. *)
Lemma interpolation_at_zero (ids : list Z) (w : Z -> Z) (f : list Z) :
  NoDup (map (fun r => r mod N) ids) ->
  (length f <= length ids)%nat ->
  (forall i, i ∈ ids ->
     (w i * prodOthers (fun j => i - j) i ids) mod N = peval f i mod N) ->
  sumOver (fun i => w i * prodOthers (fun j => - j) i ids) ids mod N
  = peval f 0 mod N.
Proof.
  intros NDm L W. pose proof (N_ge_2 N N_prime) as HN.
  assert (ND : NoDup ids) by (eapply NoDup_fmap_1; exact NDm).
  set (g := fun x =>
    sumOver (fun i => w i * prodOthers (fun j => x - j) i ids) ids
    + (-1) * peval f x).
  assert (P : is_poly (length ids) g).
  { apply is_poly_add.
    - assert (forall l, (forall i, i ∈ l -> i ∈ ids) ->
        is_poly (length ids)
          (fun x => sumOver (fun i => w i * prodOthers (fun j => x - j) i ids) l))
        as Hs.
      { induction l as [|i l IH]; intros Hl.
        - apply is_poly_zero.
        - apply (is_poly_ext _ (fun x =>
            w i * prodOthers (fun j => x - j) i ids
            + sumOver (fun i => w i * prodOthers (fun j => x - j) i ids) l));
            [reflexivity|].
          apply is_poly_add.
          + apply is_poly_scale. unfold prodOthers.
            rewrite <- (filter_others_length i ids ND (Hl i ltac:(left))).
            apply is_poly_linear_factors.
          + apply IH. intros j Hj. apply Hl. right. exact Hj. }
      apply Hs. auto.
    - apply is_poly_scale. eapply is_poly_mono; [exact L | apply is_poly_peval]. }
  destruct P as (p & Lp & Hp).
  assert (Z0 : peval p 0 mod N = 0).
  { apply (roots_vanish N N_prime ids p Lp NDm).
    intros k Hk. rewrite <- Hp. unfold g.
    rewrite (sumOver_single _ k ids ND Hk).
    - rewrite Z.add_mod, (W k Hk), <- Z.add_mod by lia.
      replace (peval f k + -1 * peval f k) with 0 by lia. apply Z.mod_0_l. lia.
    - intros i Hi Hne. rewrite prodOthers_root by auto. lia. }
  rewrite <- Hp in Z0. unfold g in Z0.
  apply (eqm_sub_zero N N_prime).
  etransitivity; [|exact Z0]. f_equal.
Qed.
End Interpolation.

Lemma wrap64_small z : GoInt.inRange z -> GoInt.wrap64 z = z.
Proof.
  unfold GoInt.inRange, GoInt.wrap64. intros Hz.
  rewrite Z.mod_small by lia. lia.
Qed.

Lemma wrapU64_small z : 0 <= z < 2 ^ 64 -> GoInt.wrapU64 z = z.
Proof. intros Hz. unfold GoInt.wrapU64. apply Z.mod_small. exact Hz. Qed.

Section Coefficients.
Context {C : Curve}.
Hypothesis Order_is_prime : Z.prime Order.

Let Order_ge_2 : 2 <= Order := Z.prime_ge_2 _ Order_is_prime.

Lemma lagrangeStep_other i j n d :
  i <> j -> 0 < i < 2 ^ 63 -> 0 < j < 2 ^ 63 ->
  exists n' d', lagrangeStep i (n, d) j = (n', d')
    /\ n' mod Order = (n * - j) mod Order
    /\ d' mod Order = (d * (i - j)) mod Order.
Proof.
  intros Hne Hi Hj. unfold lagrangeStep.
  rewrite bool_decide_eq_true_2 by exact Hne.
  unfold GoInt.neg, GoInt.sub.
  rewrite !wrap64_small by (unfold GoInt.inRange; lia).
  eexists _, _. split; [reflexivity|]. split.
  - rewrite Z.mod_mod by lia. rewrite Z.mul_mod_idemp_r by lia. reflexivity.
  - rewrite Z.mod_mod by lia. rewrite Z.mul_mod_idemp_r by lia.
    destruct (Z.ltb_spec (i - j) 0).
    + rewrite <- (Z.mul_mod_idemp_r d (i - j + Order)) by lia.
      replace (i - j + Order) with (i - j + 1 * Order) by lia.
      rewrite Z.mod_add by lia.
      rewrite Z.mul_mod_idemp_r by lia. reflexivity.
    + reflexivity.
Qed.

Lemma foldl_lagrangeStep i ids : forall n d,
  0 < i < 2 ^ 63 -> Forall (fun j => 0 < j < 2 ^ 63) ids ->
  exists n' d', foldl (lagrangeStep i) (n, d) ids = (n', d')
    /\ n' mod Order = (n * prodOthers (fun j => - j) i ids) mod Order
    /\ d' mod Order = (d * prodOthers (fun j => i - j) i ids) mod Order.
Proof.
  induction ids as [|j ids IH]; intros n d Hi Hids.
  - exists n, d. cbn. rewrite !Z.mul_1_r. auto.
  - apply Forall_cons in Hids as [Hj Hids]. cbn [foldl].
    rewrite !prodOthers_cons. destruct (decide (i = j)) as [->|Hne].
    + unfold lagrangeStep at 2. rewrite bool_decide_eq_false_2 by auto.
      apply IH; assumption.
    + destruct (lagrangeStep_other i j n d Hne Hi Hj) as (n1 & d1 & E & En & Ed).
      rewrite E.
      destruct (IH n1 d1 Hi Hids) as (n2 & d2 & E2 & En2 & Ed2).
      exists n2, d2. split; [exact E2|]. split.
      * rewrite En2, <- Z.mul_mod_idemp_l, En, Z.mul_mod_idemp_l by lia.
        f_equal. ring.
      * rewrite Ed2, <- Z.mul_mod_idemp_l, Ed, Z.mul_mod_idemp_l by lia.
        f_equal. ring.
Qed.

Lemma denominator_nonzero i ids :
  0 < i < Order -> Forall (fun j => 0 < j < Order) ids ->
  prodOthers (fun j => i - j) i ids mod Order <> 0.
Proof.
  intros Hi. induction ids as [|j ids IH]; intros Hids.
  - cbn. rewrite Z.mod_1_l by lia. lia.
  - apply Forall_cons in Hids as [Hj Hids]. rewrite prodOthers_cons.
    destruct (decide (i = j)) as [->|Hne]; [auto|].
    intros H0. apply (mod_mul_zero _ Order_is_prime) in H0 as [H0|H0].
    + destruct (Z.ltb_spec (i - j) 0).
      * replace (i - j) with ((i - j + Order) + (-1) * Order) in H0 by lia.
        rewrite Z.mod_add, Z.mod_small in H0 by lia. lia.
      * rewrite Z.mod_small in H0 by lia. lia.
    + exact (IH Hids H0).
Qed.

Lemma ModInverse_prime d :
  d mod Order <> 0 ->
  ModInverse d Order = Some (Z.invmod d Order)
  /\ (Z.invmod d Order * d) mod Order = 1.
Proof.
  intros Hd. split.
  - unfold ModInverse.
    assert (Z.gcd d Order = 1) as ->; [|reflexivity].
    rewrite Z.gcd_comm. apply Z.coprime_prime_l; [exact Order_is_prime|].
    intros D. apply Hd. apply Z.mod_divide; [lia | exact D].
  - apply Z.invmod_prime; assumption.
Qed.

Lemma invmod_congr a b :
  a mod Order = b mod Order -> Z.invmod a Order = Z.invmod b Order.
Proof.
  intros E. rewrite <- (Z.invmod_mod_l a), <- (Z.invmod_mod_l b), E. reflexivity.
Qed.

(** One round of the outer loop computes the formula. *)
Lemma coefficient_round i ids :
  validId i -> Forall validId ids ->
  exists n d, foldl (lagrangeStep i) (1, 1) ids = (n, d)
    /\ ModInverse d Order = Some (Z.invmod d Order)
    /\ (n * Z.invmod d Order) mod Order = lagrangeFormula ids i.
Proof.
  intros [Hi HiO] Hids.
  destruct (foldl_lagrangeStep i ids 1 1 Hi) as (n & d & E & En & Ed).
  { eapply Forall_impl; [exact Hids|]. intros j [? ?]. assumption. }
  rewrite Z.mul_1_l in En, Ed.
  exists n, d. split; [exact E|].
  assert (Hd : d mod Order <> 0).
  { rewrite Ed. apply denominator_nonzero; [lia|].
    eapply Forall_impl; [exact Hids|]. intros j [? ?]. lia. }
  split; [apply ModInverse_prime, Hd|].
  unfold lagrangeFormula. rewrite (invmod_congr _ _ Ed).
  rewrite <- Z.mul_mod_idemp_l, En, Z.mul_mod_idemp_l by lia. reflexivity.
Qed.

Lemma lagrangeLoop_spec ids rest : forall coeffs,
  Forall validId ids -> Forall validId rest ->
  exists coeffs', lagrangeLoop ids rest coeffs = Done coeffs'
    /\ forall i, coeffs' !! i =
         if decide (i ∈ rest) then Some (lagrangeFormula ids i)
         else coeffs !! i.
Proof.
  induction rest as [|i rest IH]; intros coeffs Hids Hrest.
  - exists coeffs. split; [reflexivity|]. intros i.
    rewrite decide_False; [reflexivity | apply not_elem_of_nil].
  - apply Forall_cons in Hrest as [Hi Hrest]. cbn [lagrangeLoop].
    destruct (coefficient_round i ids Hi Hids) as (n & d & E & Inv & F).
    rewrite E, Inv, F.
    destruct (IH (<[i := lagrangeFormula ids i]> coeffs) Hids Hrest)
      as (coeffs' & Hrun & Hlook).
    exists coeffs'. split; [exact Hrun|]. intros k. rewrite Hlook.
    destruct (decide (k ∈ rest)) as [Hk|Hk].
    + rewrite decide_True; [reflexivity | right; exact Hk].
    + destruct (decide (k = i)) as [->|Hne].
      * rewrite decide_True by left. apply lookup_insert_eq.
      * rewrite decide_False.
        -- apply lookup_insert_ne. auto.
        -- intros Hin. apply elem_of_cons in Hin as [?|?]; contradiction.
Qed.

Lemma computeLagrangeCoefficients_spec ids :
  Forall validId ids ->
  exists coeffs, computeLagrangeCoefficients ids = Done coeffs
    /\ forall i, coeffs !! i =
         if decide (i ∈ ids) then Some (lagrangeFormula ids i) else None.
Proof.
  intros Hids. destruct (lagrangeLoop_spec ids ids ∅ Hids Hids) as (c & R & L).
  exists c. split; [exact R|]. intros i. rewrite L, lookup_empty. reflexivity.
Qed.

Lemma lagrangeFormula_inverse ids i :
  validId i -> Forall validId ids ->
  (Z.invmod (prodOthers (fun j => i - j) i ids) Order
   * prodOthers (fun j => i - j) i ids) mod Order = 1.
Proof.
  intros [Hi HiO] Hids. apply Z.invmod_prime; [exact Order_is_prime|].
  apply denominator_nonzero; [lia|].
  eapply Forall_impl; [exact Hids|]. intros j [? ?]. lia.
Qed.

(** The coefficients interpolate at 0: they recover the constant coefficient
    of any polynomial with at most as many coefficients as there are ids. *)
Lemma lagrangeFormula_interpolates ids (s : Z -> Z) (f : list Z) :
  NoDup ids -> Forall validId ids ->
  (length f <= length ids)%nat ->
  (forall i, i ∈ ids -> s i mod Order = peval f i mod Order) ->
  sumOver (fun i => lagrangeFormula ids i * s i) ids mod Order
  = peval f 0 mod Order.
Proof.
  intros ND Hids L Hs.
  set (w := fun i => s i * Z.invmod (prodOthers (fun j => i - j) i ids) Order).
  rewrite <- (interpolation_at_zero Order Order_is_prime ids w f).
  - apply sumOver_mod_ext; [lia|]. intros i Hi. unfold lagrangeFormula, w.
    rewrite Z.mul_mod_idemp_l by lia. f_equal. ring.
  - assert (map (fun r => r mod Order) ids = ids) as ->; [|exact ND].
    clear -Hids. induction Hids as [|j l [Hj HjO] _ IH]; [reflexivity|].
    cbn [map]. rewrite IH, Z.mod_small by lia. reflexivity.
  - exact L.
  - intros i Hi. unfold w.
    rewrite <- Z.mul_assoc, <- Z.mul_mod_idemp_r by lia.
    rewrite lagrangeFormula_inverse, Z.mul_1_r.
    + apply Hs, Hi.
    + rewrite Forall_forall in Hids. apply Hids, Hi.
    + exact Hids.
Qed.

End Coefficients.

Section Group.
Context {C : Curve} {L : CurveLaws C}.

Let Order_ge_2 : 2 <= Order := Z.prime_ge_2 _ Order_prime.

Lemma Add_zero_r (a : G1) : Add a zero = a.
Proof. rewrite Add_comm. apply Add_zero_l. Qed.

Lemma Add_cancel_l (a b c : G1) : Add a b = Add a c -> b = c.
Proof.
  intros E.
  rewrite <- (Add_zero_l b), <- (Add_zero_l c), <- (Add_Neg a).
  rewrite (Add_comm a (Neg a)), <- !Add_assoc, E. reflexivity.
Qed.

Lemma ScalarMult_1 (a : G1) : ScalarMult a 1 = a.
Proof.
  change 1 with (0 + 1). rewrite ScalarMult_succ by lia.
  rewrite ScalarMult_0. apply Add_zero_l.
Qed.

Lemma ScalarMult_add (a : G1) (x y : Z) :
  0 <= x -> 0 <= y ->
  ScalarMult a (x + y) = Add (ScalarMult a x) (ScalarMult a y).
Proof.
  intros Hx Hy. revert y Hy. apply natlike_ind.
  - rewrite Z.add_0_r, ScalarMult_0, Add_zero_r. reflexivity.
  - intros y Hy IH. unfold Z.succ. rewrite Z.add_assoc.
    rewrite !ScalarMult_succ by lia. rewrite IH. symmetry. apply Add_assoc.
Qed.

Lemma ScalarMult_zero (k : Z) : 0 <= k -> ScalarMult zero k = zero.
Proof.
  revert k. apply natlike_ind.
  - apply ScalarMult_0.
  - intros k Hk IH. unfold Z.succ. rewrite ScalarMult_succ by lia.
    rewrite IH. apply Add_zero_l.
Qed.

Lemma ScalarMult_mul (a : G1) (x y : Z) :
  0 <= x -> 0 <= y ->
  ScalarMult (ScalarMult a x) y = ScalarMult a (x * y).
Proof.
  intros Hx Hy. revert y Hy. apply natlike_ind.
  - rewrite Z.mul_0_r, !ScalarMult_0. reflexivity.
  - intros y Hy IH. unfold Z.succ. rewrite ScalarMult_succ by lia.
    rewrite IH, Z.mul_add_distr_l, Z.mul_1_r.
    rewrite ScalarMult_add by nia. reflexivity.
Qed.

Lemma ScalarMult_mod (a : G1) (k : Z) :
  0 <= k -> ScalarMult a k = ScalarMult a (k mod Order).
Proof.
  intros Hk. rewrite (Z.div_mod k Order) at 1 by lia.
  assert (0 <= k / Order) by (apply Z.div_pos; lia).
  assert (0 <= k mod Order) by (apply Z.mod_pos_bound; lia).
  rewrite ScalarMult_add by nia.
  rewrite <- ScalarMult_mul by lia.
  rewrite ScalarMult_Order, ScalarMult_zero by lia. apply Add_zero_l.
Qed.

Lemma ScalarMult_congr (a : G1) (x y : Z) :
  0 <= x -> 0 <= y -> x mod Order = y mod Order ->
  ScalarMult a x = ScalarMult a y.
Proof.
  intros Hx Hy E. rewrite (ScalarMult_mod a x), (ScalarMult_mod a y), E by lia.
  reflexivity.
Qed.

(** The base point has order exactly [Order]. *)
Lemma ScalarBaseMult_zero_iff (k : Z) :
  0 <= k -> ScalarBaseMult k = zero <-> k mod Order = 0.
Proof.
  intros Hk. rewrite ScalarBaseMult_gen. split.
  - intros Hz. destruct (decide (k mod Order = 0)) as [|Hr]; [assumption|].
    exfalso. apply generator_nonzero.
    rewrite ScalarMult_mod in Hz by lia.
    assert (Hb : 0 <= k mod Order < Order) by (apply Z.mod_pos_bound; lia).
    set (r := k mod Order) in *.
    assert (Hu : (Z.invmod r Order * r) mod Order = 1).
    { apply Z.invmod_prime; [exact Order_prime|].
      rewrite Z.mod_small by lia. exact Hr. }
    set (u := Z.invmod r Order) in *.
    assert (0 <= u).
    { unfold u. rewrite <- Z.mod_invmod. apply Z.mod_pos_bound. lia. }
    rewrite <- (ScalarMult_1 (ScalarBaseMult 1)).
    rewrite (ScalarMult_congr _ 1 (r * u)); [| lia | nia |].
    + rewrite <- ScalarMult_mul by lia. rewrite Hz. apply ScalarMult_zero. lia.
    + rewrite Z.mod_1_l by lia. rewrite Z.mul_comm. symmetry. exact Hu.
  - intros Hz. rewrite ScalarMult_mod, Hz by lia. apply ScalarMult_0.
Qed.

Lemma ScalarBaseMult_eq_iff (x y : Z) :
  0 <= x -> 0 <= y ->
  ScalarBaseMult x = ScalarBaseMult y <-> x mod Order = y mod Order.
Proof.
  assert (forall a b, 0 <= a <= b ->
    ScalarBaseMult a = ScalarBaseMult b <-> a mod Order = b mod Order) as W.
  { intros a b Hab.
    replace b with (a + (b - a)) at 1 by lia.
    rewrite (ScalarBaseMult_gen (a + (b - a))), ScalarMult_add by lia.
    rewrite <- (ScalarBaseMult_gen a). split.
    - intros E. symmetry. apply (eqm_sub_zero Order Order_prime).
      apply ScalarBaseMult_zero_iff; [lia|].
      apply (Add_cancel_l (ScalarBaseMult a)). rewrite Add_zero_r.
      rewrite (ScalarBaseMult_gen (b - a)). symmetry. exact E.
    - intros E. symmetry in E. apply (eqm_sub_zero Order Order_prime) in E.
      apply ScalarBaseMult_zero_iff in E; [|lia].
      rewrite <- (ScalarBaseMult_gen (b - a)), E. symmetry. apply Add_zero_r. }
  intros Hx Hy. destruct (Z.le_ge_cases x y).
  - apply W. lia.
  - split; intros E; symmetry; apply W; try lia; symmetry; exact E.
Qed.

Lemma ScalarBaseMult_inj (x y : Z) :
  0 <= x < Order -> 0 <= y < Order ->
  ScalarBaseMult x = ScalarBaseMult y -> x = y.
Proof.
  intros Hx Hy E. apply ScalarBaseMult_eq_iff in E; [|lia|lia].
  rewrite !Z.mod_small in E by lia. exact E.
Qed.

(** The weighted sum of honest partial decryptions. *)
Lemma weightedSum_honest (c1 : G1) (pds : gmap Z G1) (coeffs : gmap Z Z)
    (sh lam : Z -> Z) (ids : list Z) : forall s0 : G1,
  (forall i, i ∈ ids ->
     pds !! i = Some (ScalarMult c1 (sh i)) /\ coeffs !! i = Some (lam i)
     /\ 0 <= sh i /\ 0 <= lam i) ->
  weightedSum pds coeffs ids s0
  = Done (Add s0 (ScalarMult c1 (sumOver (fun i => lam i * sh i) ids))).
Proof.
  induction ids as [|i ids IH]; intros s0 H.
  - cbn. rewrite ScalarMult_0, Add_zero_r. reflexivity.
  - destruct (H i ltac:(left)) as (Hp & Hc & Hs & Hl).
    cbn [weightedSum]. rewrite Hp, Hc. rewrite IH.
    + f_equal. rewrite sumOver_cons.
      assert (0 <= sumOver (fun i => lam i * sh i) ids).
      { clear -H. induction ids as [|j ids IH]; [cbn; lia|].
        rewrite sumOver_cons.
        destruct (H j ltac:(right; left)) as (_ & _ & ? & ?).
        assert (0 <= sumOver (λ i0 : Z, lam i0 * sh i0) ids).
        { apply IH. intros k Hk. apply H.
          apply elem_of_cons in Hk as [->|Hk]; [left | right; right; exact Hk]. }
        nia. }
      rewrite ScalarMult_add by nia.
      rewrite ScalarMult_mul by lia.
      rewrite (Z.mul_comm (sh i)). apply eq_sym, Add_assoc.
    + intros k Hk. apply H. right. exact Hk.
Qed.

Lemma sumOver_nonneg (h : Z -> Z) (l : list Z) :
  (forall i, i ∈ l -> 0 <= h i) -> 0 <= sumOver h l.
Proof.
  induction l as [|i l IH]; intros H; [cbn; lia|].
  rewrite sumOver_cons.
  assert (0 <= h i) by (apply H; left).
  assert (0 <= sumOver h l) by (apply IH; intros; apply H; right; assumption).
  lia.
Qed.

Lemma lagrangeFormula_nonneg ids i : 0 <= lagrangeFormula ids i.
Proof. unfold lagrangeFormula. apply Z.mod_pos_bound. lia. Qed.

(** Recombination with honest shares of the polynomial [f]: the masking term
    is the secret [f(0)] times C1, whatever the subset. *)
Lemma maskedPoint_honest (c1 c2 : G1) (f : list Z) (sh : Z -> Z)
    (pds : gmap Z G1) (ids : list Z) :
  NoDup ids -> Forall validId ids ->
  (length f <= length ids)%nat ->
  (forall i, i ∈ ids ->
     0 <= sh i /\ sh i mod Order = peval f i mod Order
     /\ pds !! i = Some (ScalarMult c1 (sh i))) ->
  maskedPoint c2 pds ids
  = Done (Add c2 (Neg (ScalarMult c1 (peval f 0 mod Order)))).
Proof.
  intros ND Hids Lf Hsh. unfold maskedPoint.
  destruct (computeLagrangeCoefficients_spec Order_prime ids Hids)
    as (coeffs & -> & Hc).
  cbn [run_bind].
  rewrite (weightedSum_honest c1 pds coeffs sh (lagrangeFormula ids)).
  - cbn [run_bind]. rewrite Add_zero_l. do 3 f_equal.
    rewrite ScalarMult_mod.
    + f_equal. apply (lagrangeFormula_interpolates Order_prime); try assumption.
      intros i Hi. apply Hsh, Hi.
    + apply sumOver_nonneg. intros i Hi.
      destruct (Hsh i Hi) as (? & _). pose proof (lagrangeFormula_nonneg ids i). nia.
  - intros i Hi. destruct (Hsh i Hi) as (H0 & _ & Hp).
    rewrite Hc, decide_True by exact Hi.
    repeat split; try assumption. apply lagrangeFormula_nonneg.
Qed.

End Group.

Lemma discreteLogMaxMessage_eq : discreteLogMaxMessage = 112000000000.
Proof. reflexivity. Qed.

Lemma mSqrt_eq : mSqrt = 334665.
Proof. vm_compute. reflexivity. Qed.

Lemma step_eq : step = 11200000000.
Proof. vm_compute. reflexivity. Qed.

Lemma worker_ranges (w : nat) :
  (w < 10)%nat ->
  workerStart (Z.of_nat w) = Z.of_nat w * 11200000000
  /\ workerEnd (Z.of_nat w) =
       if bool_decide (w = 9%nat) then 112000000000
       else Z.of_nat w * 11200000000 + 11199999999.
Proof.
  intros Hw.
  do 10 (destruct w as [|w]; [vm_compute; split; reflexivity|]).
  lia.
Qed.

Lemma collect_None (results : list (option Z)) :
  collect results = None <-> forall r, r ∈ results -> r = None.
Proof.
  induction results as [|[x|] l IH]; cbn [collect].
  - split; [|reflexivity]. intros _ r Hr. inversion Hr.
  - split; [discriminate|]. intros H. specialize (H (Some x) ltac:(left)). discriminate.
  - rewrite IH. split.
    + intros H r Hr. apply elem_of_cons in Hr as [->|Hr]; [reflexivity | auto].
    + intros H r Hr. apply H. right. exact Hr.
Qed.

Lemma collect_Some (results : list (option Z)) (x : Z) :
  collect results = Some x -> Some x ∈ results.
Proof.
  induction results as [|[y|] l IH]; cbn [collect]; intros H.
  - discriminate.
  - injection H as ->. left.
  - right. apply IH, H.
Qed.

Section Search.
Context {C : Curve} {L : CurveLaws C}.

Let Order_ge_2 : 2 <= Order := Z.prime_ge_2 _ Order_prime.

Lemma workerLoop_spec (m : G1) (n : nat) : forall i,
  0 <= i -> i + Z.of_nat n <= 2 ^ 63 ->
  match workerLoop n i m with
  | Some x => i <= x < i + Z.of_nat n /\ ScalarBaseMult x = m
  | None => forall y, i <= y < i + Z.of_nat n -> ScalarBaseMult y <> m
  end.
Proof.
  induction n as [|n IH]; intros i Hi Hn.
  - cbn. intros y Hy. lia.
  - cbn [workerLoop]. rewrite wrap64_small by (unfold GoInt.inRange; lia).
    destruct (Equal (ScalarBaseMult i) m) eqn:E.
    + apply Equal_spec in E. split; [lia | exact E].
    + specialize (IH (i + 1) ltac:(lia) ltac:(lia)).
      destruct (workerLoop n (i + 1) m) as [x|].
      * destruct IH as [? ?]. split; [lia | assumption].
      * intros y Hy. destruct (decide (y = i)) as [->|Hne].
        -- intros Heq. apply Equal_spec in Heq. congruence.
        -- apply IH. lia.
Qed.

Lemma worker_spec (m : G1) (start end_ : Z) :
  0 <= start -> end_ < 2 ^ 63 ->
  match worker start end_ m with
  | Some x => start <= x <= end_ /\ ScalarBaseMult x = m
  | None => forall y, start <= y <= end_ -> ScalarBaseMult y <> m
  end.
Proof.
  intros Hs He. unfold worker.
  pose proof (workerLoop_spec m (Z.to_nat (end_ - start + 1)) start Hs) as W.
  destruct (Z.le_gt_cases start (end_ + 1)) as [Hle|Hgt].
  - rewrite Z2Nat.id in W by lia. specialize (W ltac:(lia)).
    destruct (workerLoop _ start m) as [x|].
    + destruct W. split; [lia | assumption].
    + intros y Hy. apply W. lia.
  - replace (Z.to_nat (end_ - start + 1)) with 0%nat in * by lia.
    cbn. intros y Hy. lia.
Qed.

(** What worker [w] reports. *)
Lemma scheduled_worker (m : G1) (w : nat) :
  (w < 10)%nat ->
  match worker (workerStart (Z.of_nat w)) (workerEnd (Z.of_nat w)) m with
  | Some x => 0 <= x <= discreteLogMaxMessage /\ ScalarBaseMult x = m
  | None =>
      forall y, Z.of_nat w * 11200000000 <= y
                <= (if bool_decide (w = 9%nat) then 112000000000
                    else Z.of_nat w * 11200000000 + 11199999999) ->
                ScalarBaseMult y <> m
  end.
Proof.
  intros Hw. destruct (worker_ranges w Hw) as [-> ->].
  rewrite discreteLogMaxMessage_eq.
  set (e := if bool_decide (w = 9%nat) then 112000000000
            else Z.of_nat w * 11200000000 + 11199999999).
  assert (Hend : e <= 112000000000) by (unfold e; case_bool_decide; lia).
  assert (Hs : 0 <= Z.of_nat w * 11200000000) by lia.
  assert (He : e < 2 ^ 63) by lia.
  pose proof (worker_spec m (Z.of_nat w * 11200000000) e Hs He) as W.
  destruct (worker _ _ m) as [x|].
  - destruct W. split; [lia | assumption].
  - exact W.
Qed.

Lemma schedule_elem (arrival : list nat) (w : nat) :
  schedule arrival -> w ∈ arrival <-> (w < 10)%nat.
Proof.
  unfold schedule. intros P. rewrite P.
  change (Z.to_nat numWorkersDiscreteLogBruteForce) with 10%nat.
  rewrite list_elem_of_In, in_seq. lia.
Qed.

(** Strategy A finds nothing exactly when no scalar of the range matches. *)
Lemma bruteForce_Err_iff (m : G1) (arrival : list nat) :
  schedule arrival ->
  (exists msg, bruteForce m arrival = Err msg)
  <-> forall x, 0 <= x <= discreteLogMaxMessage -> ScalarBaseMult x <> m.
Proof.
  intros Hs. unfold bruteForce.
  set (results := map _ arrival).
  assert (collect results = None
          <-> forall x, 0 <= x <= discreteLogMaxMessage -> ScalarBaseMult x <> m) as K.
  { rewrite collect_None. rewrite discreteLogMaxMessage_eq. split.
    - intros H x Hx.
      assert (exists w : nat, (w < 10)%nat /\
                Z.of_nat w * 11200000000 <= x
                <= (if bool_decide (w = 9%nat) then 112000000000
                    else Z.of_nat w * 11200000000 + 11199999999))
        as (w & Hw & Hrange).
      { set (d := x / 11200000000).
        assert (11200000000 * d <= x < 11200000000 * d + 11200000000) as Hd.
        { unfold d. pose proof (Z.mod_pos_bound x 11200000000 ltac:(lia)).
          pose proof (Z.div_mod x 11200000000 ltac:(lia)). lia. }
        destruct (Z.lt_ge_cases d 9) as [Hlt|Hge].
        - exists (Z.to_nat d). split; [lia|].
          rewrite bool_decide_eq_false_2 by lia. lia.
        - exists 9%nat. split; [lia|].
          rewrite bool_decide_eq_true_2 by reflexivity. lia. }
      assert (Hr : worker (workerStart (Z.of_nat w)) (workerEnd (Z.of_nat w)) m = None).
      { apply H. unfold results. apply list_elem_of_fmap. exists w.
        split; [reflexivity|]. apply schedule_elem; assumption. }
      pose proof (scheduled_worker m w Hw) as W. rewrite Hr in W. apply W.
      exact Hrange.
    - intros H r Hr. unfold results in Hr.
      apply list_elem_of_fmap in Hr as (w & -> & Hw).
      apply (schedule_elem arrival w Hs) in Hw.
      pose proof (scheduled_worker m w Hw) as W.
      destruct (worker _ _ m) as [x|]; [|reflexivity].
      destruct W as [Hx E]. rewrite discreteLogMaxMessage_eq in Hx.
      exfalso. exact (H x Hx E). }
  destruct (collect results) as [x|] eqn:E.
  - split.
    + intros [msg Hm]. discriminate.
    + intros H. apply K in H. discriminate.
  - split; [|eauto]. intros _. apply K. reflexivity.
Qed.

(** Whatever Strategy A returns is a discrete logarithm in range. *)
Lemma bruteForce_Ok (m : G1) (arrival : list nat) (x : Z) :
  schedule arrival -> bruteForce m arrival = Ok x ->
  0 <= x <= discreteLogMaxMessage /\ ScalarBaseMult x = m.
Proof.
  intros Hs. unfold bruteForce.
  destruct (collect _) as [y|] eqn:E; [|discriminate].
  intros [= ->]. apply collect_Some in E.
  apply list_elem_of_fmap in E as (w & Hw & Hin).
  apply (schedule_elem arrival w Hs) in Hin.
  pose proof (scheduled_worker m w Hin) as W. rewrite <- Hw in W. exact W.
Qed.

Lemma bruteForce_roundtrip (x : Z) (arrival : list nat) :
  schedule arrival -> discreteLogMaxMessage < Order ->
  0 <= x <= discreteLogMaxMessage ->
  bruteForce (ScalarBaseMult x) arrival = Ok x.
Proof.
  intros Hs HO Hx.
  destruct (bruteForce (ScalarBaseMult x) arrival) as [y|msg] eqn:E.
  - apply bruteForce_Ok in E as [Hy Ey]; [|exact Hs].
    f_equal. apply ScalarBaseMult_inj; [lia | lia | exact Ey].
  - exfalso.
    assert (exists msg, bruteForce (ScalarBaseMult x) arrival = Err msg) as H by eauto.
    pose proof (proj1 (bruteForce_Err_iff _ _ Hs) H) as H'.
    exact (H' x Hx eq_refl).
Qed.

End Search.

Section BSGS.
Context {C : Curve} {L : CurveLaws C}.

Let Order_ge_2 : 2 <= Order := Z.prime_ge_2 _ Order_prime.

Lemma Neg_unique (a b : G1) : Add a b = zero -> b = Neg a.
Proof.
  intros E. apply (Add_cancel_l a). rewrite E, Add_Neg. reflexivity.
Qed.

Lemma Add_Neg_cancel (a b : G1) : Add (Add a (Neg b)) b = a.
Proof.
  rewrite <- Add_assoc, (Add_comm (Neg b) b), Add_Neg. apply Add_zero_r.
Qed.

Lemma Neg_Add (a b : G1) : Neg (Add a b) = Add (Neg a) (Neg b).
Proof.
  symmetry. apply Neg_unique.
  rewrite (Add_comm (Neg a)), Add_assoc, <- (Add_assoc a b (Neg b)).
  rewrite Add_Neg, Add_zero_r. apply Add_Neg.
Qed.

(** The baby-step table: a key maps to a [j] of the range that encodes to
    it, and every such key is present. *)
Lemma babyLoop_lookup (G : G1) (k : string) (n : nat) :
  forall (j0 : Z) (tbl : gmap string Z), 0 <= j0 ->
  match babyLoop n j0 (ScalarMult G j0) G tbl !! k with
  | Some v =>
      (j0 <= v < j0 + Z.of_nat n /\ String (ScalarMult G v) = k)
      \/ ((forall j, j0 <= j < j0 + Z.of_nat n -> String (ScalarMult G j) <> k)
          /\ tbl !! k = Some v)
  | None =>
      (forall j, j0 <= j < j0 + Z.of_nat n -> String (ScalarMult G j) <> k)
      /\ tbl !! k = None
  end.
Proof.
  induction n as [|n IH]; intros j0 tbl Hj.
  - cbn [babyLoop]. destruct (tbl !! k) as [v|] eqn:E.
    + right. split; [intros; lia | reflexivity].
    + split; [intros; lia | reflexivity].
  - cbn [babyLoop]. rewrite <- ScalarMult_succ by lia.
    specialize (IH (j0 + 1) (<[String (ScalarMult G j0) := j0]> tbl) ltac:(lia)).
    destruct (babyLoop n (j0 + 1) _ G _ !! k) as [v|].
    + destruct IH as [[Hv Hk]|[Hno Hk]].
      * left. split; [lia | exact Hk].
      * destruct (decide (String (ScalarMult G j0) = k)) as [E|E].
        -- rewrite E, lookup_insert_eq in Hk. injection Hk as <-.
           left. split; [lia | exact E].
        -- rewrite lookup_insert_ne in Hk by exact E. right. split; [|exact Hk].
           intros j Hjr. destruct (decide (j = j0)) as [->|]; [exact E|].
           apply Hno. lia.
    + destruct IH as [Hno Hk].
      destruct (decide (String (ScalarMult G j0) = k)) as [E|E].
      * rewrite E, lookup_insert_eq in Hk. discriminate.
      * rewrite lookup_insert_ne in Hk by exact E. split; [|exact Hk].
        intros j Hjr. destruct (decide (j = j0)) as [->|]; [exact E|].
        apply Hno. lia.
Qed.

Lemma giantPoint_0 (m : G1) : giantPoint m 0 = m.
Proof.
  unfold giantPoint. rewrite Z.mul_0_r, ScalarBaseMult_gen, ScalarMult_0.
  rewrite <- (Add_zero_l (Neg zero)), Add_Neg. apply Add_zero_r.
Qed.

Lemma giantPoint_succ (m : G1) (i : Z) :
  0 <= i ->
  Add (giantPoint m i) (Neg (ScalarBaseMult (GoInt.wrap64 mSqrt)))
  = giantPoint m (i + 1).
Proof.
  intros Hi. unfold giantPoint.
  rewrite wrap64_small by (rewrite mSqrt_eq; unfold GoInt.inRange; lia).
  rewrite <- Add_assoc, <- Neg_Add. do 2 f_equal.
  rewrite (ScalarBaseMult_gen (mSqrt * i)), (ScalarBaseMult_gen mSqrt),
    (ScalarBaseMult_gen (mSqrt * (i + 1))).
  rewrite <- ScalarMult_add by (rewrite ?mSqrt_eq; lia).
  f_equal. ring.
Qed.

Lemma giantPoint_hit (m : G1) (i j : Z) :
  0 <= i -> 0 <= j ->
  giantPoint m i = ScalarMult (ScalarBaseMult 1) j
  <-> m = ScalarBaseMult (i * mSqrt + j).
Proof.
  intros Hi Hj. unfold giantPoint.
  rewrite (ScalarBaseMult_gen (i * mSqrt + j)).
  rewrite ScalarMult_add by (rewrite ?mSqrt_eq; lia).
  rewrite <- (ScalarBaseMult_gen (i * mSqrt)), (Z.mul_comm i).
  split.
  - intros E. rewrite <- E, (Add_comm (ScalarBaseMult _)). symmetry.
    apply Add_Neg_cancel.
  - intros ->. rewrite (Add_comm (ScalarBaseMult _)), <- Add_assoc, Add_Neg.
    apply Add_zero_r.
Qed.

Lemma giantLoop_spec (m : G1) (tbl : gmap string Z) (n : nat) :
  forall i, 0 <= i -> i + Z.of_nat n <= mSqrt + 1 ->
  match giantLoop n i (giantPoint m i)
          (Neg (ScalarBaseMult (GoInt.wrap64 mSqrt))) tbl with
  | Some x =>
      exists i' j, i <= i' < i + Z.of_nat n
        /\ tbl !! String (giantPoint m i') = Some j
        /\ x = i' * mSqrt + j
        /\ forall k, i <= k < i' -> tbl !! String (giantPoint m k) = None
  | None =>
      forall k, i <= k < i + Z.of_nat n -> tbl !! String (giantPoint m k) = None
  end.
Proof.
  induction n as [|n IH]; intros i Hi Hn.
  - cbn. intros; lia.
  - cbn [giantLoop]. destruct (tbl !! String (giantPoint m i)) as [j|] eqn:E.
    + exists i, j. split; [lia|]. split; [exact E|]. split; [|intros; lia].
      rewrite wrapU64_small by (rewrite mSqrt_eq in *; nia). reflexivity.
    + rewrite giantPoint_succ by lia.
      specialize (IH (i + 1) ltac:(lia) ltac:(lia)).
      destruct (giantLoop n (i + 1) _ _ tbl) as [x|].
      * destruct IH as (i' & j & Hi' & Hj & -> & Hno).
        exists i', j. split; [lia|]. split; [exact Hj|]. split; [reflexivity|].
        intros k Hk. destruct (decide (k = i)) as [->|]; [exact E|]. apply Hno. lia.
      * intros k Hk. destruct (decide (k = i)) as [->|]; [exact E|]. apply IH. lia.
Qed.

Lemma babySteps_Some (P : G1) (j : Z) :
  babySteps !! String P = Some j ->
  0 <= j < mSqrt /\ P = ScalarMult (ScalarBaseMult 1) j.
Proof.
  unfold babySteps. intros H.
  pose proof (babyLoop_lookup (ScalarBaseMult 1) (String P) (Z.to_nat mSqrt) 0 ∅
                ltac:(lia)) as B.
  rewrite ScalarMult_0 in B. rewrite H in B.
  rewrite Z2Nat.id in B by (rewrite mSqrt_eq; lia).
  destruct B as [[Hj E]|[_ E]].
  - split; [lia|]. symmetry. apply String_inj, E.
  - rewrite lookup_empty in E. discriminate.
Qed.

Lemma babySteps_None (P : G1) :
  babySteps !! String P = None <->
  forall j, 0 <= j < mSqrt -> P <> ScalarMult (ScalarBaseMult 1) j.
Proof.
  unfold babySteps.
  pose proof (babyLoop_lookup (ScalarBaseMult 1) (String P) (Z.to_nat mSqrt) 0 ∅
                ltac:(lia)) as B.
  rewrite ScalarMult_0 in B.
  rewrite Z2Nat.id in B by (rewrite mSqrt_eq; lia).
  destruct (babyLoop _ 0 zero _ ∅ !! String P) as [v|] eqn:E.
  - split; [discriminate|]. intros H. exfalso.
    destruct B as [[Hv Ev]|[_ Ev]].
    + apply (H v); [lia|]. symmetry. apply String_inj, Ev.
    + rewrite lookup_empty in Ev. discriminate.
  - split; [|reflexivity]. intros _ j Hj ->. destruct B as [B _].
    apply (B j); [lia | reflexivity].
Qed.

Lemma babyStepGiantStep_unfold (m : G1) :
  babyStepGiantStep m =
  match giantLoop (Z.to_nat (mSqrt + 1)) 0 (giantPoint m 0)
          (Neg (ScalarBaseMult (GoInt.wrap64 mSqrt))) babySteps with
  | Some x => Ok x
  | None => Err "failed to compute discrete logarithm using Baby-Step Giant-Step algorithm"
  end.
Proof. rewrite giantPoint_0. unfold babyStepGiantStep, babySteps. cbv zeta. reflexivity. Qed.

(** Whatever Strategy B returns is a discrete logarithm, found at the first
    giant step that hits the table. *)
Lemma babyStepGiantStep_Ok (m : G1) (x : Z) :
  babyStepGiantStep m = Ok x ->
  exists i j, 0 <= i <= mSqrt /\ 0 <= j < mSqrt /\ x = i * mSqrt + j
    /\ m = ScalarBaseMult x
    /\ forall i' j', 0 <= i' < i -> 0 <= j' < mSqrt ->
         m <> ScalarBaseMult (i' * mSqrt + j').
Proof.
  rewrite babyStepGiantStep_unfold.
  pose proof (giantLoop_spec m babySteps (Z.to_nat (mSqrt + 1)) 0 ltac:(lia)) as Gs.
  rewrite Z2Nat.id in Gs by (rewrite mSqrt_eq; lia). specialize (Gs ltac:(lia)).
  destruct (giantLoop _ 0 _ _ babySteps) as [y|]; [|discriminate].
  intros [= <-]. destruct Gs as (i & j & Hi & Hj & Hy & Hno).
  apply babySteps_Some in Hj as [Hjr Hj].
  exists i, j. split; [lia|]. split; [lia|]. split; [exact Hy|]. split.
  - rewrite Hy. apply giantPoint_hit; [lia | lia | exact Hj].
  - intros i' j' Hi' Hj' E.
    pose proof (Hno i' ltac:(lia)) as N.
    rewrite babySteps_None in N. apply (N j' Hj').
    apply giantPoint_hit; [lia | lia | exact E].
Qed.

(** Strategy B fails exactly when no scalar below mSqrt * (mSqrt + 1)
    matches. *)
Lemma babyStepGiantStep_Err_iff (m : G1) :
  (exists msg, babyStepGiantStep m = Err msg)
  <-> forall x, 0 <= x < mSqrt * (mSqrt + 1) -> m <> ScalarBaseMult x.
Proof.
  rewrite babyStepGiantStep_unfold.
  pose proof (giantLoop_spec m babySteps (Z.to_nat (mSqrt + 1)) 0 ltac:(lia)) as Gs.
  rewrite Z2Nat.id in Gs by (rewrite mSqrt_eq; lia). specialize (Gs ltac:(lia)).
  destruct (giantLoop _ 0 _ _ babySteps) as [y|].
  - split; [intros [msg H]; discriminate|]. intros H. exfalso.
    destruct Gs as (i & j & Hi & Hj & Hy & _).
    apply babySteps_Some in Hj as [Hjr Hj].
    apply (H y).
    + rewrite mSqrt_eq in *. nia.
    + rewrite Hy. apply giantPoint_hit; [lia | lia | exact Hj].
  - split; [|eauto]. intros _ x Hx E.
    assert (Hm : 0 < mSqrt) by (rewrite mSqrt_eq; lia).
    pose proof (Z.div_mod x mSqrt ltac:(lia)) as Hdm.
    pose proof (Z.mod_pos_bound x mSqrt Hm) as Hmod.
    assert (0 <= x / mSqrt) by (apply Z.div_pos; lia).
    assert (x / mSqrt < mSqrt + 1).
    { apply Z.div_lt_upper_bound; lia. }
    pose proof (Gs (x / mSqrt) ltac:(lia)) as N.
    rewrite babySteps_None in N. apply (N (x mod mSqrt) Hmod).
    apply giantPoint_hit; [lia | lia |].
    rewrite E. f_equal. lia.
Qed.

Lemma babyStepGiantStep_roundtrip (x : Z) :
  discreteLogMaxMessage < Order ->
  0 <= x <= discreteLogMaxMessage ->
  babyStepGiantStep (ScalarBaseMult x) = Ok x.
Proof.
  intros HO Hx. rewrite discreteLogMaxMessage_eq in *.
  destruct (babyStepGiantStep (ScalarBaseMult x)) as [y|msg] eqn:E.
  - f_equal.
    apply babyStepGiantStep_Ok in E as (i & j & Hi & Hj & Hy & Ey & Hfirst).
    pose proof mSqrt_eq as Hm.
    assert (Hm0 : 0 < mSqrt) by lia.
    pose proof (Z.div_mod x mSqrt ltac:(lia)) as Hdm.
    pose proof (Z.mod_pos_bound x mSqrt Hm0) as Hmod.
    assert (0 <= x / mSqrt) by (apply Z.div_pos; lia).
    assert (Hle : i <= x / mSqrt).
    { destruct (Z.le_gt_cases i (x / mSqrt)) as [|Hgt]; [assumption|].
      exfalso. apply (Hfirst (x / mSqrt) (x mod mSqrt)); [lia | lia |].
      f_equal. lia. }
    assert (0 <= y) by nia.
    apply ScalarBaseMult_eq_iff in Ey; [|lia|lia].
    assert (Hyx : y < x + mSqrt) by nia.
    rewrite (Z.mod_small x) in Ey by lia.
    assert (HO0 : Order <> 0) by lia.
    pose proof (Z.div_mod y Order HO0) as Hy2.
    rewrite <- Ey in Hy2.
    assert (0 <= y / Order) by (apply Z.div_pos; lia).
    destruct (decide (y / Order = 0)) as [Hz|Hnz]; [rewrite Hz in Hy2; lia|].
    exfalso. nia.
  - exfalso.
    assert (exists msg, babyStepGiantStep (ScalarBaseMult x) = Err msg) as H by eauto.
    pose proof (proj1 (babyStepGiantStep_Err_iff _) H) as H'.
    apply (H' x); [rewrite mSqrt_eq; lia | reflexivity].
Qed.

End BSGS.

(** ** The concrete back end satisfies the laws *)

Lemma noDivisorFrom_spec (p : Z) (n : nat) : forall d,
  0 < d -> Zq.noDivisorFrom n d p = true ->
  forall k, 0 <= k < Z.of_nat n -> p mod (d + 2 * k) <> 0.
Proof.
  induction n as [|n IH]; intros d Hd H k Hk; [lia|].
  cbn [Zq.noDivisorFrom] in H.
  destruct (Z.eqb_spec (p mod d) 0) as [|Hne]; [discriminate|].
  destruct (decide (k = 0)) as [->|Hk0].
  - rewrite Z.add_0_r. exact Hne.
  - replace (d + 2 * k) with ((d + 2) + 2 * (k - 1)) by lia.
    apply (IH (d + 2)); [lia | exact H | lia].
Qed.

Lemma primeb_sound (p : Z) : Zq.primeb p = true -> Z.prime p.
Proof.
  unfold Zq.primeb. intros H.
  apply andb_prop in H as [H H3]. apply andb_prop in H as [H1 H2].
  apply Z.ltb_lt in H1. apply negb_true_iff in H2. apply Z.eqb_neq in H2.
  split; [exact H1|]. intros a Ha [b Hb].
  (* p = b * a with 1 < a < p, hence 1 < b < p as well *)
  assert (Hb1 : 1 < b < p) by nia.
  assert (exists c, 1 < c /\ c * c <= p /\ (c | p)) as (c & Hc1 & Hc2 & Hc3).
  { destruct (Z.le_ge_cases a b).
    - exists a. split; [lia|]. split; [nia|]. exists b. exact Hb.
    - exists b. split; [lia|]. split; [nia|]. exists a. lia. }
  assert (Hcs : c <= Z.sqrt p).
  { apply Z.sqrt_le_square; lia. }
  destruct Hc3 as [e He].
  destruct (Z.eq_dec (c mod 2) 0) as [Hev|Hodd].
  - apply H2. apply Z.mod_divide; [lia|].
    apply Z.mod_divide in Hev; [|lia]. destruct Hev as [h Hh].
    exists (e * h). lia.
  - pose proof (Z.mod_pos_bound c 2 ltac:(lia)) as Hb2.
    pose proof (Z.div_mod c 2 ltac:(lia)) as Hdm.
    assert (Hc3 : 3 <= c) by lia.
    pose proof (noDivisorFrom_spec p _ 3 ltac:(lia) H3 ((c - 3) / 2)) as N.
    pose proof (Z.div_mod (c - 3) 2 ltac:(lia)) as Hdm2.
    pose proof (Z.mod_pos_bound (c - 3) 2 ltac:(lia)) as Hb3.
    assert (Hpar : (c - 3) mod 2 = 0).
    { replace (c - 3) with (c mod 2 - 1 + (c / 2 - 1) * 2) by lia.
      rewrite Z.mod_add by lia. replace (c mod 2) with 1 by lia. reflexivity. }
    pose proof (Z.div_mod (Z.sqrt p) 2 ltac:(lia)) as Hdm3.
    pose proof (Z.mod_pos_bound (Z.sqrt p) 2 ltac:(lia)) as Hb4.
    assert (0 <= Z.sqrt p / 2) by (apply Z.div_pos; [apply Z.sqrt_nonneg | lia]).
    apply N.
    + rewrite Z2Nat.id by lia. lia.
    + replace (3 + 2 * ((c - 3) / 2)) with c by lia.
      apply Z.mod_divide; [lia|]. exists e. exact He.
Qed.

Lemma q_prime : Z.prime Zq.q.
Proof. apply primeb_sound. vm_compute. reflexivity. Qed.

Lemma mk_val (a : Zq.point) : Zq.mk (Zq.val a) = a.
Proof.
  apply dsig_eq. cbn. apply Z.mod_small. exact (proj2_dsig a).
Qed.

Lemma val_mk (z : Z) : Zq.val (Zq.mk z) = z mod Zq.q.
Proof. reflexivity. Qed.

Lemma mk_eq (x y : Z) : x mod Zq.q = y mod Zq.q -> Zq.mk x = Zq.mk y.
Proof. intros E. apply dsig_eq. exact E. Qed.

#[global] Instance Zq_laws : CurveLaws Zq.curve.
Proof.
  assert (Hq : 0 < Zq.q) by exact Zq.q_pos.
  split; cbn [G1 Order zero Add Neg ScalarMult ScalarBaseMult Equal String Zq.curve].
  - exact q_prime.
  - intros a b c. apply mk_eq. rewrite !val_mk.
    rewrite Z.add_mod_idemp_r, Z.add_mod_idemp_l by lia. f_equal. lia.
  - intros a b. f_equal. lia.
  - intros a. rewrite val_mk, Z.mod_0_l by lia. apply mk_val.
  - intros a. apply mk_eq. rewrite val_mk.
    rewrite Z.add_mod_idemp_r by lia. f_equal. lia.
  - intros a. f_equal. lia.
  - intros a k Hk. apply mk_eq. rewrite val_mk.
    rewrite Z.add_mod_idemp_l by lia. f_equal. lia.
  - intros a. apply mk_eq. rewrite Z.mod_mul by lia. reflexivity.
  - intros k. apply mk_eq. rewrite val_mk.
    rewrite Z.mul_mod_idemp_l by lia. f_equal. lia.
  - intros E. apply dsig_eq in E. vm_compute in E. discriminate.
  - intros a b. rewrite bool_decide_eq_true. split.
    + intros E. apply dsig_eq. exact E.
    + intros ->. reflexivity.
  - intros a b E. apply dsig_eq. apply (inj pretty) in E. exact E.
Qed.

Lemma peval_monomial (k : nat) (x : Z) : peval (monomial k) x = x ^ Z.of_nat k.
Proof.
  unfold monomial. induction k as [|k IH].
  - cbn. lia.
  - cbn [replicate app]. rewrite peval_cons, IH.
    rewrite Nat2Z.inj_succ, Z.pow_succ_r by lia. lia.
Qed.

Lemma monomial_length (k : nat) : length (monomial k) = S k.
Proof. unfold monomial. rewrite length_app, length_replicate. cbn. lia. Qed.

Section Outcomes.
Context {C : Curve}.

Lemma lagrangeLoop_Fatal (ids rest : list Z) : forall coeffs,
  (exists i, i ∈ rest
     /\ ModInverse (foldl (lagrangeStep i) (1, 1) ids).2 Order = None) ->
  lagrangeLoop ids rest coeffs = Fatal.
Proof.
  induction rest as [|i rest IH]; intros coeffs (k & Hk & Hnone).
  - inversion Hk.
  - cbn [lagrangeLoop].
    destruct (foldl (lagrangeStep i) (1, 1) ids) as [n d] eqn:E.
    destruct (ModInverse d Order) as [dinv|] eqn:Ei; [|reflexivity].
    apply IH. exists k. split; [|exact Hnone].
    apply elem_of_cons in Hk as [->|Hk]; [|exact Hk].
    rewrite E in Hnone. cbn in Hnone. congruence.
Qed.

Lemma lagrangeLoop_no_Panic (ids rest : list Z) : forall coeffs,
  lagrangeLoop ids rest coeffs <> Panic.
Proof.
  induction rest as [|i rest IH]; intros coeffs; cbn [lagrangeLoop].
  - discriminate.
  - destruct (foldl (lagrangeStep i) (1, 1) ids) as [n d].
    destruct (ModInverse d Order); [apply IH | discriminate].
Qed.

Lemma weightedSum_Panic (pds : gmap Z G1) (coeffs : gmap Z Z) (ids : list Z) :
  forall s, (exists id, id ∈ ids /\ pds !! id = None) ->
  weightedSum pds coeffs ids s = Panic.
Proof.
  induction ids as [|i ids IH]; intros s (k & Hk & Hnone).
  - inversion Hk.
  - cbn [weightedSum]. destruct (pds !! i) as [pd|] eqn:Ep; [|reflexivity].
    destruct (coeffs !! i) as [lam|]; [|reflexivity].
    apply IH. exists k. split; [|exact Hnone].
    apply elem_of_cons in Hk as [->|Hk]; [congruence | exact Hk].
Qed.

Lemma weightedSum_Done (pds : gmap Z G1) (coeffs : gmap Z Z) (ids : list Z) :
  forall s,
  (forall id, id ∈ ids -> is_Some (pds !! id) /\ is_Some (coeffs !! id)) ->
  exists s', weightedSum pds coeffs ids s = Done s'.
Proof.
  induction ids as [|i ids IH]; intros s H.
  - exists s. reflexivity.
  - destruct (H i ltac:(left)) as [[pd Ep] [lam El]].
    cbn [weightedSum]. rewrite Ep, El. apply IH.
    intros id Hid. apply H. right. exact Hid.
Qed.

End Outcomes.

Section Strategies.
Context {C : Curve} {L : CurveLaws C}.

Lemma bruteForce_Err_msg (m : G1) (arrival : list nat) (msg : string) :
  bruteForce m arrival = Err msg ->
  msg = "failed to decrypt message, discrete logarithm problem unsolved"%string.
Proof.
  unfold bruteForce. destruct (collect _); [discriminate|]. intros [= <-]. reflexivity.
Qed.

Lemma babyStepGiantStep_Err_msg (m : G1) (msg : string) :
  babyStepGiantStep m = Err msg ->
  msg = "failed to compute discrete logarithm using Baby-Step Giant-Step algorithm"%string.
Proof.
  unfold babyStepGiantStep. cbv zeta. destruct (giantLoop _ _ _ _ _); [discriminate|].
  intros [= <-]. reflexivity.
Qed.

Lemma bruteForce_unsolved_iff (m : G1) (arrival : list nat) :
  DiscreteLogUnsolved (bruteForce m arrival)
  <-> exists msg, bruteForce m arrival = Err msg.
Proof.
  split.
  - intros [H|H]; eauto.
  - intros [msg H]. left. rewrite H. f_equal. eapply bruteForce_Err_msg, H.
Qed.

Lemma babyStepGiantStep_unsolved_iff (m : G1) :
  DiscreteLogUnsolved (babyStepGiantStep m)
  <-> exists msg, babyStepGiantStep m = Err msg.
Proof.
  split.
  - intros [H|H]; eauto.
  - intros [msg H]. right. rewrite H. f_equal. eapply babyStepGiantStep_Err_msg, H.
Qed.

Lemma bruteForce_schedule_indep (m : G1) (a1 a2 : list nat) :
  schedule a1 -> schedule a2 -> discreteLogMaxMessage < Order ->
  bruteForce m a1 = bruteForce m a2.
Proof.
  intros H1 H2 HO.
  destruct (bruteForce m a1) as [x|msg1] eqn:E1;
    destruct (bruteForce m a2) as [y|msg2] eqn:E2.
  - apply bruteForce_Ok in E1 as [Hx Ex]; [|exact H1].
    apply bruteForce_Ok in E2 as [Hy Ey]; [|exact H2].
    f_equal. apply ScalarBaseMult_inj; [lia | lia | congruence].
  - exfalso. apply bruteForce_Ok in E1 as [Hx Ex]; [|exact H1].
    assert (exists msg, bruteForce m a2 = Err msg) as H by eauto.
    pose proof (proj1 (bruteForce_Err_iff _ _ H2) H) as H'. exact (H' x Hx Ex).
  - exfalso. apply bruteForce_Ok in E2 as [Hy Ey]; [|exact H2].
    assert (exists msg, bruteForce m a1 = Err msg) as H by eauto.
    pose proof (proj1 (bruteForce_Err_iff _ _ H1) H) as H'. exact (H' y Hy Ey).
  - apply bruteForce_Err_msg in E1, E2. congruence.
Qed.

Lemma giant_steps_all_miss_iff (m : G1) :
  (forall i, 0 <= i <= mSqrt -> babySteps !! String (giantPoint m i) = None)
  <-> forall x, 0 <= x < mSqrt * (mSqrt + 1) -> m <> ScalarBaseMult x.
Proof.
  assert (Hm : 0 < mSqrt) by (rewrite mSqrt_eq; lia).
  split.
  - intros H x Hx E.
    pose proof (Z.div_mod x mSqrt ltac:(lia)) as Hdm.
    pose proof (Z.mod_pos_bound x mSqrt Hm) as Hmod.
    assert (0 <= x / mSqrt) by (apply Z.div_pos; lia).
    assert (x / mSqrt < mSqrt + 1) by (apply Z.div_lt_upper_bound; lia).
    pose proof (H (x / mSqrt) ltac:(lia)) as N.
    rewrite babySteps_None in N. apply (N (x mod mSqrt) Hmod).
    apply giantPoint_hit; [lia | lia |]. rewrite E. f_equal. lia.
  - intros H i Hi. apply babySteps_None. intros j Hj E.
    apply giantPoint_hit in E; [|lia|lia].
    apply (H (i * mSqrt + j)); [|exact E]. rewrite mSqrt_eq in *. nia.
Qed.

End Strategies.

(** ** Properties of decrypt.go *)

(** C3.  For pairwise-distinct positive ids (below the group order),
    [computeLagrangeCoefficients] returns for each id i the coefficient
    (prod over j <> i of -j) * (prod over j <> i of (i - j))^(-1) mod N, the
    second factor being an inverse modulo N; the coefficients satisfy
    sum_i lambda_i * i^k = [k = 0] mod N for every k below the number of ids,
    in particular for the ids 1, 2, 3 and k = 0, 1. *)
Theorem lagrange_coefficients_formula (C : Curve) (ids : list Z) :
  Z.prime Order -> NoDup ids -> Forall validId ids ->
  exists coeffs : gmap Z Z,
    computeLagrangeCoefficients ids = Done coeffs
    /\ (forall i, i ∈ ids ->
          coeffs !! i = Some (lagrangeFormula ids i)
          /\ (Z.invmod (prodOthers (fun j => i - j) i ids) Order
              * prodOthers (fun j => i - j) i ids) mod Order = 1)
    /\ (forall k : nat, (k < length ids)%nat ->
          sumOver (fun i => default 0 (coeffs !! i) * i ^ Z.of_nat k) ids
            mod Order
          = (if decide (k = 0%nat) then 1 else 0) mod Order).
Proof.
  intros Hp ND Hids.
  destruct (computeLagrangeCoefficients_spec Hp ids Hids) as (coeffs & Hrun & Hc).
  exists coeffs. split; [exact Hrun|]. split.
  - intros i Hi. split.
    + rewrite Hc, decide_True by exact Hi. reflexivity.
    + apply lagrangeFormula_inverse; [exact Hp | | exact Hids].
      rewrite Forall_forall in Hids. apply Hids, Hi.
  - intros k Hk.
    assert (E : sumOver (fun i => default 0 (coeffs !! i) * i ^ Z.of_nat k) ids
                = sumOver (fun i => lagrangeFormula ids i * peval (monomial k) i) ids).
    { assert (forall l, (forall i, i ∈ l -> i ∈ ids) ->
        sumOver (fun i => default 0 (coeffs !! i) * i ^ Z.of_nat k) l
        = sumOver (fun i => lagrangeFormula ids i * peval (monomial k) i) l) as G.
      { induction l as [|i l IH]; intros Hl; [reflexivity|].
        rewrite !sumOver_cons, IH by (intros j Hj; apply Hl; right; exact Hj).
        rewrite Hc, decide_True by (apply Hl; left).
        rewrite peval_monomial. reflexivity. }
      apply G. auto. }
    rewrite E.
    rewrite (lagrangeFormula_interpolates Hp ids (peval (monomial k)) (monomial k)
               ND Hids).
    + rewrite peval_monomial. destruct k as [|k].
      * rewrite decide_True by reflexivity. reflexivity.
      * rewrite decide_False by discriminate.
        rewrite Z.pow_0_l by lia. reflexivity.
    + rewrite monomial_length. lia.
    + reflexivity.
Qed.

Lemma lagrange_coefficients_formula_witness :
  exists coeffs : gmap Z Z,
    @computeLagrangeCoefficients Zq.curve [1; 2; 3] = Done coeffs
    /\ (forall i, i ∈ [1; 2; 3] ->
          coeffs !! i = Some (@lagrangeFormula Zq.curve [1; 2; 3] i)
          /\ (Z.invmod (prodOthers (fun j => i - j) i [1; 2; 3]) Zq.q
              * prodOthers (fun j => i - j) i [1; 2; 3]) mod Zq.q = 1)
    /\ (forall k : nat, (k < 3)%nat ->
          sumOver (fun i => default 0 (coeffs !! i) * i ^ Z.of_nat k) [1; 2; 3]
            mod Zq.q
          = (if decide (k = 0%nat) then 1 else 0) mod Zq.q).
Proof.
  apply (lagrange_coefficients_formula Zq.curve [1; 2; 3]).
  - exact q_prime.
  - apply (bool_decide_unpack _). vm_compute. exact I.
  - repeat constructor; cbn; lia.
Defined.

(** C1.  For honest partial decryptions of shares of one polynomial (the
    secret is its value at 0), recombination over any two subsets of at least
    threshold size returns the same result, which depends on the secret and
    the ciphertext only. *)
Theorem threshold_independence (C : Curve) (L : CurveLaws C)
    (c1 c2 : G1) (f : list Z) (sh : Z -> Z)
    (pds1 pds2 : gmap Z G1) (ids1 ids2 : list Z)
    (useBabyStepGiantStep : bool) (arrival1 arrival2 : list nat) :
  discreteLogMaxMessage < Order ->
  schedule arrival1 -> schedule arrival2 ->
  NoDup ids1 -> NoDup ids2 ->
  Forall validId ids1 -> Forall validId ids2 ->
  (length f <= length ids1)%nat -> (length f <= length ids2)%nat ->
  (forall i, i ∈ ids1 \/ i ∈ ids2 ->
     0 <= sh i /\ sh i mod Order = peval f i mod Order) ->
  (forall i, i ∈ ids1 ->
     pds1 !! i = Some (ComputePartialDecryption
                         {| ID := i; PrivateShare := sh i |} c1)) ->
  (forall i, i ∈ ids2 ->
     pds2 !! i = Some (ComputePartialDecryption
                         {| ID := i; PrivateShare := sh i |} c1)) ->
  CombinePartialDecryptions useBabyStepGiantStep arrival1 c2 pds1 ids1
  = CombinePartialDecryptions useBabyStepGiantStep arrival2 c2 pds2 ids2
  /\ maskedPoint c2 pds1 ids1
     = Done (Add c2 (Neg (ScalarMult c1 (peval f 0 mod Order))))
  /\ maskedPoint c2 pds2 ids2
     = Done (Add c2 (Neg (ScalarMult c1 (peval f 0 mod Order)))).
Proof.
  intros HO Hs1 Hs2 ND1 ND2 V1 V2 L1 L2 Hsh P1 P2.
  assert (M1 : maskedPoint c2 pds1 ids1
               = Done (Add c2 (Neg (ScalarMult c1 (peval f 0 mod Order))))).
  { apply (maskedPoint_honest c1 c2 f sh); try assumption.
    intros i Hi. destruct (Hsh i (or_introl Hi)) as [? ?].
    repeat split; try assumption. apply P1, Hi. }
  assert (M2 : maskedPoint c2 pds2 ids2
               = Done (Add c2 (Neg (ScalarMult c1 (peval f 0 mod Order))))).
  { apply (maskedPoint_honest c1 c2 f sh); try assumption.
    intros i Hi. destruct (Hsh i (or_intror Hi)) as [? ?].
    repeat split; try assumption. apply P2, Hi. }
  split; [|split; assumption].
  unfold CombinePartialDecryptions. rewrite M1, M2. cbn [run_bind].
  destruct useBabyStepGiantStep; cbn [negb]; [reflexivity|].
  f_equal. apply bruteForce_schedule_indep; assumption.
Qed.

(** C2.  For 0 <= x <= discreteLogMaxMessage (below the group order), both
    strategies return exactly x on the point x * G. *)
Theorem discrete_log_round_trip (C : Curve) (L : CurveLaws C)
    (x : Z) (arrival : list nat) :
  discreteLogMaxMessage < Order -> schedule arrival ->
  0 <= x <= discreteLogMaxMessage ->
  bruteForce (ScalarBaseMult x) arrival = Ok x
  /\ babyStepGiantStep (ScalarBaseMult x) = Ok x.
Proof.
  intros HO Hs Hx. split.
  - apply bruteForce_roundtrip; assumption.
  - apply babyStepGiantStep_roundtrip; assumption.
Qed.

Lemma discrete_log_round_trip_witness :
  @bruteForce Zq.curve (ScalarBaseMult 42) (seq 0 10) = Ok 42
  /\ @babyStepGiantStep Zq.curve (ScalarBaseMult 42) = Ok 42.
Proof.
  apply (discrete_log_round_trip Zq.curve Zq_laws 42 (seq 0 10)).
  - reflexivity.
  - apply Permutation_refl.
  - split; [lia | discriminate].
Defined.

(** C5, as the code has it.  Strategy A fails exactly when no x of
    [0, discreteLogMaxMessage] has m = x * G.  Strategy B fails exactly when
    no giant step i <= mSqrt hits the table, which is when no x below
    mSqrt * (mSqrt + 1) has m = x * G.  On every point x * G with x in
    [0, discreteLogMaxMessage] both return a scalar. *)
Theorem discrete_log_unsolved_iff (C : Curve) (L : CurveLaws C)
    (m : G1) (arrival : list nat) :
  schedule arrival ->
  (DiscreteLogUnsolved (bruteForce m arrival)
   <-> ~ exists x, 0 <= x <= discreteLogMaxMessage /\ m = ScalarBaseMult x)
  /\ (DiscreteLogUnsolved (babyStepGiantStep m)
      <-> forall i, 0 <= i <= mSqrt ->
            babySteps !! String (giantPoint m i) = None)
  /\ (DiscreteLogUnsolved (babyStepGiantStep m)
      <-> ~ exists x, 0 <= x < mSqrt * (mSqrt + 1) /\ m = ScalarBaseMult x)
  /\ (forall x, 0 <= x <= discreteLogMaxMessage -> m = ScalarBaseMult x ->
        (exists y, bruteForce m arrival = Ok y)
        /\ (exists y, babyStepGiantStep m = Ok y)).
Proof.
  intros Hs.
  assert (A : DiscreteLogUnsolved (bruteForce m arrival)
    <-> ~ exists x, 0 <= x <= discreteLogMaxMessage /\ m = ScalarBaseMult x).
  { rewrite bruteForce_unsolved_iff, (bruteForce_Err_iff m arrival Hs). split.
    - intros H (x & Hx & E). exact (H x Hx (eq_sym E)).
    - intros H x Hx E. apply H. exists x. split; [exact Hx | symmetry; exact E]. }
  assert (B : DiscreteLogUnsolved (babyStepGiantStep m)
    <-> ~ exists x, 0 <= x < mSqrt * (mSqrt + 1) /\ m = ScalarBaseMult x).
  { rewrite babyStepGiantStep_unsolved_iff, babyStepGiantStep_Err_iff. split.
    - intros H (x & Hx & E). exact (H x Hx E).
    - intros H x Hx E. apply H. exists x. split; [exact Hx | exact E]. }
  split; [exact A|]. split; [|split; [exact B|]].
  - rewrite giant_steps_all_miss_iff, babyStepGiantStep_unsolved_iff.
    apply babyStepGiantStep_Err_iff.
  - intros x Hx E. split.
    + destruct (bruteForce m arrival) as [y|msg] eqn:R; [eauto|].
      exfalso. apply (proj1 A).
      * left. f_equal. eapply bruteForce_Err_msg, R.
      * exists x. split; assumption.
    + destruct (babyStepGiantStep m) as [y|msg] eqn:R; [eauto|].
      exfalso. apply (proj1 B).
      * right. f_equal. eapply babyStepGiantStep_Err_msg, R.
      * exists x. split; [|exact E]. rewrite mSqrt_eq, discreteLogMaxMessage_eq in *. lia.
Qed.

Lemma threshold_independence_witness :
  @CombinePartialDecryptions Zq.curve true (seq 0 10) (Zq.mk 1000)
    {[ 1 := SampleShares.pd 1; 2 := SampleShares.pd 2 ]} [1; 2]
  = @CombinePartialDecryptions Zq.curve true (seq 0 10) (Zq.mk 1000)
    {[ 2 := SampleShares.pd 2; 3 := SampleShares.pd 3 ]} [2; 3]
  /\ @maskedPoint Zq.curve (Zq.mk 1000)
       {[ 1 := SampleShares.pd 1; 2 := SampleShares.pd 2 ]} [1; 2]
     = Done (Add (Zq.mk 1000)
               (Neg (ScalarMult (Zq.mk 5)
                       (peval SampleShares.polynomial 0 mod Zq.q))))
  /\ @maskedPoint Zq.curve (Zq.mk 1000)
       {[ 2 := SampleShares.pd 2; 3 := SampleShares.pd 3 ]} [2; 3]
     = Done (Add (Zq.mk 1000)
               (Neg (ScalarMult (Zq.mk 5)
                       (peval SampleShares.polynomial 0 mod Zq.q)))).
Proof.
  apply (threshold_independence Zq.curve Zq_laws (Zq.mk 5) (Zq.mk 1000)
           SampleShares.polynomial (peval SampleShares.polynomial)).
  - reflexivity.
  - apply Permutation_refl.
  - apply Permutation_refl.
  - apply (bool_decide_unpack _). vm_compute. exact I.
  - apply (bool_decide_unpack _). vm_compute. exact I.
  - repeat constructor; cbn; lia.
  - repeat constructor; cbn; lia.
  - cbn. lia.
  - cbn. lia.
  - intros i Hi. split; [|reflexivity].
    assert (0 < i) by (set_unfold; lia). cbn. lia.
  - intros i Hi. set_unfold.
    destruct Hi as [->|[->|[]]]; reflexivity.
  - intros i Hi. set_unfold.
    destruct Hi as [->|[->|[]]]; reflexivity.
Defined.

(** At the point (discreteLogMaxMessage + 1) * G, which is no x * G with x in
    [0, discreteLogMaxMessage], Baby-Step Giant-Step returns a scalar. *)
Lemma bsgs_solves_beyond_max_message :
  ~ (DiscreteLogUnsolved
       (@babyStepGiantStep Zq.curve (ScalarBaseMult (discreteLogMaxMessage + 1)))
     <-> ~ exists x, 0 <= x <= discreteLogMaxMessage
           /\ @ScalarBaseMult Zq.curve (discreteLogMaxMessage + 1)
              = ScalarBaseMult x).
Proof.
  intros [_ H].
  assert (U : DiscreteLogUnsolved
    (@babyStepGiantStep Zq.curve (ScalarBaseMult (discreteLogMaxMessage + 1)))).
  { apply H. intros (x & Hx & E).
    apply (ScalarBaseMult_inj) in E.
    - lia.
    - rewrite discreteLogMaxMessage_eq. cbn. unfold Zq.q. lia.
    - rewrite discreteLogMaxMessage_eq in Hx. cbn. unfold Zq.q. lia. }
  apply (babyStepGiantStep_unsolved_iff) in U.
  pose proof (proj1 (babyStepGiantStep_Err_iff _) U) as N.
  apply (N (discreteLogMaxMessage + 1)); [|reflexivity].
  rewrite mSqrt_eq, discreteLogMaxMessage_eq. lia.
Qed.

Lemma discrete_log_unsolved_iff_witness :
  (DiscreteLogUnsolved (@bruteForce Zq.curve (Zq.mk 42) (seq 0 10))
   <-> ~ exists x, 0 <= x <= discreteLogMaxMessage
          /\ Zq.mk 42 = @ScalarBaseMult Zq.curve x)
  /\ (DiscreteLogUnsolved (@babyStepGiantStep Zq.curve (Zq.mk 42))
      <-> forall i, 0 <= i <= mSqrt ->
            @babySteps Zq.curve !! String (@giantPoint Zq.curve (Zq.mk 42) i) = None)
  /\ (DiscreteLogUnsolved (@babyStepGiantStep Zq.curve (Zq.mk 42))
      <-> ~ exists x, 0 <= x < mSqrt * (mSqrt + 1)
             /\ Zq.mk 42 = @ScalarBaseMult Zq.curve x)
  /\ (forall x, 0 <= x <= discreteLogMaxMessage ->
        Zq.mk 42 = @ScalarBaseMult Zq.curve x ->
        (exists y, @bruteForce Zq.curve (Zq.mk 42) (seq 0 10) = Ok y)
        /\ (exists y, @babyStepGiantStep Zq.curve (Zq.mk 42) = Ok y)).
Proof.
  apply (discrete_log_unsolved_iff Zq.curve Zq_laws (Zq.mk 42) (seq 0 10)).
  apply Permutation_refl.
Defined.

(** With the ids 1, 1, 2 the combine operation returns the plaintext 5: no
    denominator is zero and no error arises. *)
Lemma repeated_id_combines :
  @CombinePartialDecryptions Zq.curve true (seq 0 10) (Zq.mk 5)
    {[ 1 := Zq.mk 0; 2 := Zq.mk 0 ]} [1; 1; 2]
  = Done (Ok 5).
Proof.
  unfold CombinePartialDecryptions, maskedPoint.
  destruct (computeLagrangeCoefficients_spec (C := Zq.curve) q_prime [1; 1; 2])
    as (coeffs & -> & Hc).
  { repeat constructor; cbn; lia. }
  cbn [run_bind].
  rewrite (weightedSum_honest (C := Zq.curve) (Zq.mk 0) _ coeffs
             (fun _ => 1) (lagrangeFormula [1; 1; 2])).
  - cbn [run_bind negb].
    assert (E : Add (Zq.mk 5)
                  (Neg (Add zero (ScalarMult (Zq.mk 0)
                     (sumOver (fun i => lagrangeFormula [1; 1; 2] i * 1) [1; 1; 2]))))
                = @ScalarBaseMult Zq.curve 5).
    { apply dsig_eq. cbn. unfold Zq.val. cbn.
      rewrite !Z.mod_0_l by (unfold Zq.q; lia). reflexivity. }
    rewrite E.
    rewrite (babyStepGiantStep_roundtrip (C := Zq.curve) 5).
    + reflexivity.
    + reflexivity.
    + rewrite discreteLogMaxMessage_eq. lia.
  - intros i Hi. rewrite Hc, decide_True by exact Hi.
    split; [|split; [reflexivity|split; [lia|apply (lagrangeFormula_nonneg)]]].
    set_unfold.
    destruct Hi as [->|[->|[->|[]]]];
      (transitivity (Some (Zq.mk 0)); [reflexivity|]);
      apply f_equal, dsig_eq; reflexivity.
Qed.

(** C8, as the code has it.  A repeated id gives no zero denominator: for
    positive ids below the prime order, repeated or not, the coefficients are
    computed.  When a denominator has no inverse modulo the order, the call
    ends the process through [log.Fatalf]; no error value is returned. *)
Theorem missing_inverse_is_fatal (C : Curve) (ids : list Z) :
  Z.prime Order ->
  (Forall validId ids ->
     exists coeffs : gmap Z Z,
       computeLagrangeCoefficients ids = Done coeffs
       /\ forall i, i ∈ ids -> coeffs !! i = Some (lagrangeFormula ids i))
  /\ ((exists i, i ∈ ids
         /\ ModInverse (foldl (lagrangeStep i) (1, 1) ids).2 Order = None) ->
      computeLagrangeCoefficients ids = Fatal
      /\ forall useBabyStepGiantStep arrival c2 partialDecryptions,
           CombinePartialDecryptions useBabyStepGiantStep arrival c2
             partialDecryptions ids = Fatal).
Proof.
  intros Hp. split.
  - intros Hids.
    destruct (computeLagrangeCoefficients_spec Hp ids Hids) as (coeffs & R & Hc).
    exists coeffs. split; [exact R|]. intros i Hi.
    rewrite Hc, decide_True by exact Hi. reflexivity.
  - intros H.
    assert (F : computeLagrangeCoefficients ids = Fatal)
      by (apply lagrangeLoop_Fatal, H).
    split; [exact F|]. intros b arrival c2 pds.
    unfold CombinePartialDecryptions, maskedPoint. rewrite F. reflexivity.
Qed.

Lemma missing_inverse_is_fatal_witness :
  (exists coeffs : gmap Z Z,
     @computeLagrangeCoefficients Zq.curve [1; 1; 2] = Done coeffs
     /\ forall i, i ∈ [1; 1; 2] ->
          coeffs !! i = Some (@lagrangeFormula Zq.curve [1; 1; 2] i))
  /\ @computeLagrangeCoefficients Zq.curve [1; Zq.q + 1] = Fatal.
Proof.
  split.
  - apply (proj1 (missing_inverse_is_fatal Zq.curve [1; 1; 2] q_prime)).
    repeat constructor; cbn; lia.
  - apply (proj2 (missing_inverse_is_fatal Zq.curve [1; Zq.q + 1] q_prime)).
    exists 1. split; [left | vm_compute; reflexivity].
Defined.

(** C10.  For positive ids below the prime order: when some listed id has no
    entry in the map of partial decryptions the call panics on the nil point;
    when every listed id has an entry it returns. *)
Theorem missing_partial_decryption_panics (C : Curve)
    (useBabyStepGiantStep : bool) (arrival : list nat) (c2 : G1)
    (partialDecryptions : gmap Z G1) (participants : list Z) :
  Z.prime Order -> Forall validId participants ->
  ((exists id, id ∈ participants /\ partialDecryptions !! id = None) ->
   CombinePartialDecryptions useBabyStepGiantStep arrival c2
     partialDecryptions participants = Panic)
  /\ ((forall id, id ∈ participants -> is_Some (partialDecryptions !! id)) ->
      exists r, CombinePartialDecryptions useBabyStepGiantStep arrival c2
                  partialDecryptions participants = Done r).
Proof.
  intros Hp Hids.
  destruct (computeLagrangeCoefficients_spec Hp participants Hids)
    as (coeffs & R & Hc).
  unfold CombinePartialDecryptions, maskedPoint. rewrite R. cbn [run_bind].
  split.
  - intros H. rewrite weightedSum_Panic by exact H. reflexivity.
  - intros H.
    destruct (weightedSum_Done partialDecryptions coeffs participants zero)
      as (s & ->).
    { intros id Hid. split; [apply H, Hid|].
      rewrite Hc, decide_True by exact Hid. eauto. }
    cbn [run_bind]. destruct (negb useBabyStepGiantStep); eauto.
Qed.

Lemma missing_partial_decryption_panics_witness :
  @CombinePartialDecryptions Zq.curve true (seq 0 10) (Zq.mk 5)
    {[ 1 := Zq.mk 3 ]} [1; 2] = Panic
  /\ exists r, @CombinePartialDecryptions Zq.curve true (seq 0 10) (Zq.mk 5)
                 {[ 1 := Zq.mk 3; 2 := Zq.mk 4 ]} [1; 2] = Done r.
Proof.
  split.
  - apply (missing_partial_decryption_panics Zq.curve true (seq 0 10) (Zq.mk 5)
             {[ 1 := Zq.mk 3 ]} [1; 2] q_prime).
    + repeat constructor; cbn; lia.
    + exists 2. split; [right; left | reflexivity].
  - apply (missing_partial_decryption_panics Zq.curve true (seq 0 10) (Zq.mk 5)
             {[ 1 := Zq.mk 3; 2 := Zq.mk 4 ]} [1; 2] q_prime).
    + repeat constructor; cbn; lia.
    + intros id Hid. set_unfold. destruct Hid as [->|[->|[]]]; eexists; reflexivity.
Defined.

(** ** Properties of state/vote.go *)

Section AddVoteFacts.
Context {E : Elgamal}.

Lemma AddVote_not_open (o : State) (v : Vote) :
  dbTx o = None -> AddVote o v = (o, Some "need to StartBatch() first"%string).
Proof. intros H. unfold AddVote. rewrite H. reflexivity. Qed.

Lemma AddVote_full (o : State) (v : Vote) :
  dbTx o <> None -> VoteBatchSize <= Z.of_nat (length (votes o)) ->
  AddVote o v = (o, Some "too many votes for this batch"%string).
Proof.
  intros Hopen Hfull. unfold AddVote.
  destruct (dbTx o); [|contradiction].
  destruct (Z.geb_spec (Z.of_nat (length (votes o))) VoteBatchSize); [reflexivity | lia].
Qed.

Lemma AddVote_corrupt (o : State) (v : Vote) (value : list byte) (err : string) :
  dbTx o <> None -> Z.of_nat (length (votes o)) < VoteBatchSize ->
  tree o !! Nullifier v = Some value -> Deserialize value = inr err ->
  AddVote o v = (o, Some err).
Proof.
  intros Hopen Hroom Hget Hdec. unfold AddVote.
  destruct (dbTx o); [|contradiction].
  destruct (Z.geb_spec (Z.of_nat (length (votes o))) VoteBatchSize); [lia|].
  rewrite Hget, Hdec. reflexivity.
Qed.

Lemma AddVote_new (o : State) (v : Vote) :
  dbTx o <> None -> Z.of_nat (length (votes o)) < VoteBatchSize ->
  tree o !! Nullifier v = None ->
  AddVote o v =
  ({| dbTx := dbTx o; tree := tree o; votes := votes o ++ [v];
      BallotSum := CiphertextsAdd (BallotSum o) (Ballot v);
      OverwriteSum := OverwriteSum o;
      ballotCount := GoInt.add (ballotCount o) 1;
      overwriteCount := overwriteCount o |}, None).
Proof.
  intros Hopen Hroom Hget. unfold AddVote.
  destruct (dbTx o); [|contradiction].
  destruct (Z.geb_spec (Z.of_nat (length (votes o))) VoteBatchSize); [lia|].
  rewrite Hget. reflexivity.
Qed.

Lemma AddVote_overwrite (o : State) (v : Vote) (value : list byte)
    (oldVote : Ciphertexts) :
  dbTx o <> None -> Z.of_nat (length (votes o)) < VoteBatchSize ->
  tree o !! Nullifier v = Some value -> Deserialize value = inl oldVote ->
  AddVote o v =
  ({| dbTx := dbTx o; tree := tree o; votes := votes o ++ [v];
      BallotSum := CiphertextsAdd (BallotSum o) (Ballot v);
      OverwriteSum := CiphertextsAdd (OverwriteSum o) oldVote;
      ballotCount := GoInt.add (ballotCount o) 1;
      overwriteCount := GoInt.add (overwriteCount o) 1 |}, None).
Proof.
  intros Hopen Hroom Hget Hdec. unfold AddVote.
  destruct (dbTx o); [|contradiction].
  destruct (Z.geb_spec (Z.of_nat (length (votes o))) VoteBatchSize); [lia|].
  rewrite Hget, Hdec. reflexivity.
Qed.

(** An accepted vote: what every successful call does. *)
Lemma AddVote_accepts (o : State) (v : Vote) :
  dbTx o <> None -> Z.of_nat (length (votes o)) < VoteBatchSize ->
  storedBallotDecodes o v ->
  exists o', AddVote o v = (o', None)
    /\ dbTx o' = dbTx o /\ tree o' = tree o /\ votes o' = votes o ++ [v]
    /\ BallotSum o' = CiphertextsAdd (BallotSum o) (Ballot v)
    /\ ballotCount o' = GoInt.add (ballotCount o) 1.
Proof.
  intros Hopen Hroom Hdec. unfold storedBallotDecodes in Hdec.
  destruct (tree o !! Nullifier v) as [value|] eqn:Hget.
  - destruct Hdec as [oldVote Hdec].
    rewrite (AddVote_overwrite o v value oldVote) by assumption.
    eexists. split; [reflexivity|]. cbn. auto.
  - rewrite (AddVote_new o v) by assumption.
    eexists. split; [reflexivity|]. cbn. auto.
Qed.

Lemma GoInt_add_small (c k : Z) :
  - 2 ^ 63 <= c + k < 2 ^ 63 -> GoInt.add c k = c + k.
Proof. intros H. unfold GoInt.add. apply wrap64_small. exact H. Qed.

Lemma AddVotes_accepts (vs : list Vote) : forall o : State,
  dbTx o <> None ->
  Z.of_nat (length (votes o)) + Z.of_nat (length vs) <= VoteBatchSize ->
  Forall (storedBallotDecodes o) vs ->
  (AddVotes o vs).2 = replicate (length vs) None
  /\ dbTx (AddVotes o vs).1 = dbTx o
  /\ tree (AddVotes o vs).1 = tree o
  /\ votes (AddVotes o vs).1 = votes o ++ vs.
Proof.
  induction vs as [|v vs IH]; intros o Hopen Hroom Hdec.
  - cbn. rewrite app_nil_r. auto.
  - apply Forall_cons in Hdec as [Hv Hvs]. cbn [length] in Hroom.
    destruct (AddVote_accepts o v Hopen ltac:(lia) Hv)
      as (o' & Hrun & Htx & Htree & Hvotes & _).
    cbn [AddVotes]. rewrite Hrun.
    destruct (IH o') as (He & Htx' & Htree' & Hvotes').
    + rewrite Htx. exact Hopen.
    + rewrite Hvotes, length_app. cbn [length]. lia.
    + eapply Forall_impl; [exact Hvs|]. intros w Hw.
      unfold storedBallotDecodes in *. rewrite Htree. exact Hw.
    + destruct (AddVotes o' vs) as [o'' errs]. cbn in *.
      rewrite He, Htx', Htree', Hvotes', Htx, Htree, Hvotes, <- app_assoc.
      auto.
Qed.

Lemma AddVotes_app (vs ws : list Vote) : forall o : State,
  (AddVotes o (vs ++ ws)).2
  = (AddVotes o vs).2 ++ (AddVotes (AddVotes o vs).1 ws).2.
Proof.
  induction vs as [|v vs IH]; intros o; [reflexivity|].
  cbn [AddVotes app]. destruct (AddVote o v) as [o' err].
  specialize (IH o').
  destruct (AddVotes o' (vs ++ ws)) as [o2 e2].
  destruct (AddVotes o' vs) as [o3 e3]. cbn in *.
  destruct (AddVotes o3 ws) as [o4 e4]. cbn in *. rewrite IH. reflexivity.
Qed.

End AddVoteFacts.

(** Two votes on one nullifier that is not in the persisted store: after both
    calls overwriteCount is 0, not 1. *)
Lemma second_vote_not_seen_as_overwrite :
  overwriteCount
    (AddVote (AddVote (Sample.openBatch ∅) (Sample.vote Sample.nullifierA 1 2)).1
       (Sample.vote Sample.nullifierA 3 4)).1 = 0
  /\ ~ (overwriteCount
          (AddVote (AddVote (Sample.openBatch ∅)
                      (Sample.vote Sample.nullifierA 1 2)).1
             (Sample.vote Sample.nullifierA 3 4)).1 = 1).
Proof. split; [reflexivity | discriminate]. Qed.

(** C4, as the code has it.  Two votes with the same nullifier added to an
    open batch with room for both: ballotSum gains E1 then E2, ballotCount
    gains 2 and both votes are appended.  The overwrite accumulators follow
    the persisted store alone: unchanged when the nullifier is not persisted;
    when it is persisted with a decodable ballot, that ballot is added at each
    of the two calls. *)
Theorem same_nullifier_twice (E : Elgamal) (o : State) (v1 v2 : Vote) :
  dbTx o <> None ->
  Z.of_nat (length (votes o)) + 2 <= VoteBatchSize ->
  Nullifier v1 = Nullifier v2 ->
  storedBallotDecodes o v1 ->
  0 <= ballotCount o < 2 ^ 63 - 2 ->
  0 <= overwriteCount o < 2 ^ 63 - 2 ->
  exists o1 o2,
    AddVote o v1 = (o1, None) /\ AddVote o1 v2 = (o2, None)
    /\ BallotSum o2
       = CiphertextsAdd (CiphertextsAdd (BallotSum o) (Ballot v1)) (Ballot v2)
    /\ ballotCount o2 = ballotCount o + 2
    /\ votes o2 = votes o ++ [v1; v2]
    /\ match tree o !! Nullifier v1 with
       | None =>
           OverwriteSum o2 = OverwriteSum o
           /\ overwriteCount o2 = overwriteCount o
       | Some value =>
           forall oldVote, Deserialize value = inl oldVote ->
             OverwriteSum o2
             = CiphertextsAdd (CiphertextsAdd (OverwriteSum o) oldVote) oldVote
             /\ overwriteCount o2 = overwriteCount o + 2
       end.
Proof.
  intros Hopen Hroom Hnull Hdec Hb How. unfold storedBallotDecodes in Hdec.
  destruct (tree o !! Nullifier v1) as [value|] eqn:Hget.
  - destruct Hdec as [oldVote Hold].
    eexists _, _. split; [apply (AddVote_overwrite o v1 value oldVote); auto; lia|].
    split.
    { apply (AddVote_overwrite _ v2 value oldVote); cbn.
      - exact Hopen.
      - rewrite length_app. cbn. lia.
      - rewrite <- Hnull. exact Hget.
      - exact Hold. }
    cbn. rewrite !GoInt_add_small by (rewrite ?GoInt_add_small; lia).
    rewrite <- app_assoc. split; [reflexivity|]. split; [lia|].
    split; [reflexivity|].
    intros old' Hold'. rewrite Hold in Hold'. injection Hold' as <-.
    split; [reflexivity | lia].
  - eexists _, _. split; [apply (AddVote_new o v1); auto; lia|].
    split.
    { apply (AddVote_new _ v2); cbn.
      - exact Hopen.
      - rewrite length_app. cbn. lia.
      - rewrite <- Hnull. exact Hget. }
    cbn. rewrite !GoInt_add_small by (rewrite ?GoInt_add_small; lia).
    rewrite <- app_assoc. split; [reflexivity|]. split; [lia|].
    split; [reflexivity|]. split; reflexivity.
Qed.

Lemma same_nullifier_twice_witness :
  exists o1 o2,
    AddVote (Sample.openBatch ∅) (Sample.vote Sample.nullifierA 1 2) = (o1, None)
    /\ AddVote o1 (Sample.vote Sample.nullifierA 3 4) = (o2, None)
    /\ BallotSum o2
       = CiphertextsAdd (CiphertextsAdd Sample.zeroCiphertext (Zq.mk 1, Zq.mk 2))
           (Zq.mk 3, Zq.mk 4)
    /\ ballotCount o2 = 0 + 2
    /\ votes o2 = [] ++ [Sample.vote Sample.nullifierA 1 2;
                         Sample.vote Sample.nullifierA 3 4]
    /\ OverwriteSum o2 = Sample.zeroCiphertext /\ overwriteCount o2 = 0.
Proof.
  destruct (same_nullifier_twice Zq.elgamal (Sample.openBatch ∅)
              (Sample.vote Sample.nullifierA 1 2)
              (Sample.vote Sample.nullifierA 3 4))
    as (o1 & o2 & H1 & H2 & H3 & H4 & H5 & H6).
  - discriminate.
  - cbn. lia.
  - reflexivity.
  - exact I.
  - cbn. lia.
  - cbn. lia.
  - exists o1, o2. repeat split; try assumption; apply H6.
Defined.

(** C7.  When the vote's nullifier is in the persisted store and the stored
    bytes do not deserialize, [AddVote] returns the decode error and leaves
    the whole state as it was; a later vote is handled as if the failed call
    had not happened, and is accepted when its nullifier is not persisted. *)
Theorem corrupt_stored_ballot (E : Elgamal) (o : State) (v : Vote)
    (value : list byte) (err : string) :
  dbTx o <> None ->
  Z.of_nat (length (votes o)) < VoteBatchSize ->
  tree o !! Nullifier v = Some value ->
  Deserialize value = inr err ->
  AddVote o v = (o, Some err)
  /\ forall v', AddVote (AddVote o v).1 v' = AddVote o v'
       /\ (tree o !! Nullifier v' = None ->
           (AddVote (AddVote o v).1 v').2 = None
           /\ votes (AddVote (AddVote o v).1 v').1 = votes o ++ [v']).
Proof.
  intros Hopen Hroom Hget Hdec.
  pose proof (AddVote_corrupt o v value err Hopen Hroom Hget Hdec) as R.
  split; [exact R|]. intros v'. rewrite R. cbn [fst]. split; [reflexivity|].
  intros Hnew. rewrite (AddVote_new o v' Hopen Hroom Hnew). split; reflexivity.
Qed.

Lemma corrupt_stored_ballot_witness :
  AddVote (Sample.openBatch Sample.corruptStore) (Sample.vote Sample.nullifierC 1 2)
  = (Sample.openBatch Sample.corruptStore, Some "invalid input length"%string)
  /\ forall v',
       AddVote (AddVote (Sample.openBatch Sample.corruptStore)
                  (Sample.vote Sample.nullifierC 1 2)).1 v'
       = AddVote (Sample.openBatch Sample.corruptStore) v'
       /\ (Sample.corruptStore !! Nullifier v' = None ->
           (AddVote (AddVote (Sample.openBatch Sample.corruptStore)
                       (Sample.vote Sample.nullifierC 1 2)).1 v').2 = None
           /\ votes (AddVote (AddVote (Sample.openBatch Sample.corruptStore)
                                (Sample.vote Sample.nullifierC 1 2)).1 v').1
              = [] ++ [v']).
Proof.
  apply (corrupt_stored_ballot Zq.elgamal (Sample.openBatch Sample.corruptStore)
           (Sample.vote Sample.nullifierC 1 2) ["x"%byte]).
  - discriminate.
  - cbn. lia.
  - reflexivity.
  - reflexivity.
Defined.

(** An open batch with room, and [AddVote] fails all the same: the ballot
    stored under the vote's nullifier does not decode. *)
Lemma room_but_refused :
  dbTx (Sample.openBatch Sample.corruptStore) <> None
  /\ Z.of_nat (length (votes (Sample.openBatch Sample.corruptStore)))
     < @VoteBatchSize Zq.elgamal
  /\ (AddVote (Sample.openBatch Sample.corruptStore)
        (Sample.vote Sample.nullifierC 1 2)).2
     = Some "invalid input length"%string.
Proof. split; [discriminate|]. split; reflexivity. Qed.

(** C9, as the code has it.  On an open batch, [AddVote] fails with "too many
    votes for this batch" whenever len(votes) >= VoteBatchSize; below that it
    succeeds provided the ballot persisted under the vote's nullifier, if any,
    decodes.  Hence of VoteBatchSize + 1 such votes added to an empty open
    batch, the first VoteBatchSize are accepted and the last is refused. *)
Theorem batch_capacity (E : Elgamal) (o : State) :
  dbTx o <> None ->
  0 <= VoteBatchSize ->
  (forall v, VoteBatchSize <= Z.of_nat (length (votes o)) ->
     AddVote o v = (o, Some "too many votes for this batch"%string))
  /\ (forall v, Z.of_nat (length (votes o)) < VoteBatchSize ->
        storedBallotDecodes o v -> (AddVote o v).2 = None)
  /\ (forall vs, votes o = [] ->
        length vs = S (Z.to_nat VoteBatchSize) ->
        Forall (storedBallotDecodes o) vs ->
        (AddVotes o vs).2
        = replicate (Z.to_nat VoteBatchSize) None
          ++ [Some "too many votes for this batch"%string]).
Proof.
  intros Hopen Hsize. split; [|split].
  - intros v Hfull. apply AddVote_full; assumption.
  - intros v Hroom Hdec.
    destruct (AddVote_accepts o v Hopen Hroom Hdec) as (o' & -> & _). reflexivity.
  - intros vs Hempty Hlen Hdec.
    destruct (exists_last (l := vs)) as (ws & w & ->).
    { intros ->. discriminate. }
    rewrite length_app in Hlen. cbn in Hlen.
    assert (Hws : length ws = Z.to_nat VoteBatchSize) by lia.
    apply Forall_app in Hdec as [Hdw _].
    destruct (AddVotes_accepts ws o Hopen) as (He & Htx & _ & Hvotes).
    { rewrite Hempty. cbn. lia. }
    { exact Hdw. }
    rewrite AddVotes_app, He, Hws. f_equal.
    cbn [AddVotes].
    rewrite (AddVote_full (AddVotes o ws).1 w).
    + reflexivity.
    + rewrite Htx. exact Hopen.
    + rewrite Hvotes, Hempty. cbn. lia.
Qed.

Lemma batch_capacity_witness :
  (forall v, @VoteBatchSize Zq.elgamal <= Z.of_nat (length (votes (Sample.openBatch ∅))) ->
     AddVote (Sample.openBatch ∅) v
     = (Sample.openBatch ∅, Some "too many votes for this batch"%string))
  /\ (AddVote (Sample.openBatch ∅) (Sample.vote Sample.nullifierA 1 2)).2 = None
  /\ (AddVotes (Sample.openBatch ∅)
        [Sample.vote Sample.nullifierA 1 2; Sample.vote Sample.nullifierB 3 4;
         Sample.vote Sample.nullifierC 5 6]).2
     = replicate (Z.to_nat (@VoteBatchSize Zq.elgamal)) None
       ++ [Some "too many votes for this batch"%string].
Proof.
  destruct (batch_capacity Zq.elgamal (Sample.openBatch ∅)) as (F & A & S).
  - discriminate.
  - cbn. lia.
  - split; [exact F|]. split.
    + apply A; [cbn; lia | exact I].
    + apply S; [reflexivity | reflexivity | repeat constructor].
Defined.

(** ** Properties of crypto/ecc/bjj_iden3/babyjubjub.go *)

(** C6 on the code.  [Neg] never reads its argument: the receiver's new value
    is the negation of the receiver's old value.  With a fresh receiver (the
    identity) and the base point as argument the receiver stays the identity,
    and adding it to the base point gives the base point, not the identity. *)
Theorem Neg_ignores_its_argument :
  (forall g a a', BJJ.Neg g a = BJJ.Neg g a')
  /\ BJJ.Neg BJJ.New BJJ.B8 = BJJ.NewPoint
  /\ BJJ.Add BJJ.B8 (BJJ.Neg BJJ.New BJJ.B8) = BJJ.B8
  /\ BJJ.Add BJJ.B8 (BJJ.Neg BJJ.New BJJ.B8) <> BJJ.NewPoint
  /\ BJJ.Add BJJ.B8 (BJJ.Neg BJJ.B8 BJJ.B8) = BJJ.NewPoint.
Proof.
  split; [reflexivity|].
  split; [vm_compute; reflexivity|].
  split; [vm_compute; reflexivity|].
  split; [vm_compute; discriminate|].
  vm_compute; reflexivity.
Qed.
